(** * Speech-to-text session controller (src/App.js): a shallow embedding

    The React component [App] keeps its state in [useState] cells and reaches
    the browser through [URL.createObjectURL]/[URL.revokeObjectURL],
    [AbortController], [fetch], [localStorage] and [JSON].  The embedding
    threads one [World] (the component state and the browser-side resources)
    through a small state-and-exception monad, so that every handler reads
    like its JavaScript text. *)

From Stdlib Require Import Decimal DecimalFacts DecimalN.
From stdpp Require Import base tactics option list numbers strings sorting.

Local Open Scope N_scope.

(** ** JavaScript strings

    A JavaScript string is a sequence of UTF-16 code units. *)

Definition jstring : Type := list N.

Fixpoint js (s : string) : jstring :=
  match s with
  | EmptyString => []
  | String a r => Ascii.N_of_ascii a :: js r
  end.

(** [s.startsWith(p)] *)
Fixpoint startsWith (p s : jstring) : bool :=
  match p, s with
  | [], _ => true
  | a :: p', b :: s' => (a =? b) && startsWith p' s'
  | _ :: _, [] => false
  end.

(** Decimal digits of a non-negative integer, as [Number.prototype.toString]
    and template literals print them. *)
Fixpoint print_uint (d : Decimal.uint) : jstring :=
  match d with
  | Nil => []
  | D0 r => 48 :: print_uint r
  | D1 r => 49 :: print_uint r
  | D2 r => 50 :: print_uint r
  | D3 r => 51 :: print_uint r
  | D4 r => 52 :: print_uint r
  | D5 r => 53 :: print_uint r
  | D6 r => 54 :: print_uint r
  | D7 r => 55 :: print_uint r
  | D8 r => 56 :: print_uint r
  | D9 r => 57 :: print_uint r
  end.

Definition decimal (n : N) : jstring := print_uint (N.to_uint n).

(** The class [\s] of a regular expression. *)
Definition is_space (c : N) : bool :=
  ((9 <=? c) && (c <=? 13)) || (c =? 32) || (c =? 160) || (c =? 5760)
  || ((8192 <=? c) && (c <=? 8202)) || (c =? 8232) || (c =? 8233)
  || (c =? 8239) || (c =? 8287) || (c =? 12288) || (c =? 65279).

(** [s.split(/\s+/)]: the pieces between maximal runs of white space; a run
    at either end leaves an empty piece there, and the empty string gives one
    empty piece. *)
Fixpoint split_spaces (s cur : jstring) (in_run : bool) : list jstring :=
  match s with
  | [] => [reverse cur]
  | c :: r =>
      if is_space c
      then (if in_run then split_spaces r cur true
            else reverse cur :: split_spaces r [] true)
      else split_spaces r (c :: cur) false
  end.

Definition split_ws (s : jstring) : list jstring := split_spaces s [] false.

(** ** JSON values

    A number is kept as the decimal literal that denotes it: sign, integer
    digits, optional fraction digits, optional signed exponent. *)

Record numlit := {
  num_neg : bool;
  num_int : Decimal.uint;
  num_frac : option Decimal.uint;
  num_exp : option (bool * Decimal.uint)
}.

#[local] Unset Elimination Schemes.
Inductive json :=
  | JNull
  | JBool (b : bool)
  | JNum (n : numlit)
  | JStr (s : jstring)
  | JArr (l : list json)
  | JObj (l : list (jstring * json)).
#[local] Set Elimination Schemes.

Definition int_lit (n : N) : numlit :=
  {| num_neg := false; num_int := N.to_uint n; num_frac := None; num_exp := None |}.

(** The literal denotes [m * 10^e]. *)
Definition num_mantissa (n : numlit) : Z :=
  Z.of_N (N.of_uint (Decimal.app (num_int n) (default Nil (num_frac n)))).

Definition num_exponent (n : numlit) : Z :=
  (match num_exp n with
   | Some (true, d) => - Z.of_N (N.of_uint d)
   | Some (false, d) => Z.of_N (N.of_uint d)
   | None => 0
   end - Z.of_nat (Decimal.nb_digits (default Nil (num_frac n))))%Z.

(** The Number value of the literal is [+0] or [-0]: it is zero, or it rounds
    to zero (at most half of the least positive double, [2^-1074]). *)
Definition num_is_zero (n : numlit) : bool :=
  let m := num_mantissa n in
  let e := num_exponent n in
  ((m =? 0) || ((e <? 0) && (m * 2 ^ 1075 <=? 10 ^ (- e))))%Z.

(** A JavaScript value as an expression yields it: [None] is [undefined]. *)
Definition jsval : Type := option json.

(** ToBoolean *)
Definition truthy (v : jsval) : bool :=
  match v with
  | None => false
  | Some JNull => false
  | Some (JBool b) => b
  | Some (JNum n) => negb (num_is_zero n)
  | Some (JStr s) => match s with [] => false | _ => true end
  | Some (JArr _) => true
  | Some (JObj _) => true
  end.

(** [a || b] *)
Definition js_or (a b : jsval) : jsval := if truthy a then a else b.

Fixpoint assoc (k : jstring) (l : list (jstring * json)) : jsval :=
  match l with
  | [] => None
  | (k', v) :: r => if bool_decide (k = k') then Some v else assoc k r
  end.

(** ** Exceptions *)

Record Exn := { exn_name : jstring; exn_message : jstring }.

Definition Error (msg : jstring) : Exn :=
  {| exn_name := js "Error"; exn_message := msg |}.
Definition TypeError (msg : jstring) : Exn :=
  {| exn_name := js "TypeError"; exn_message := msg |}.
Definition SyntaxError (msg : jstring) : Exn :=
  {| exn_name := js "SyntaxError"; exn_message := msg |}.
Definition AbortError (msg : jstring) : Exn :=
  {| exn_name := js "AbortError"; exn_message := msg |}.

(** ** JSON.stringify

    QuoteJSONString: the two-character escapes, [\uXXXX] (lower-case
    hexadecimal) for the other control characters and for a surrogate that is
    not half of a pair, every other code unit as it is. *)

Definition hex_digit (n : N) : N := if n <? 10 then 48 + n else 87 + n.

Definition hex4 (c : N) : jstring :=
  [hex_digit (c / 4096 mod 16); hex_digit (c / 256 mod 16);
   hex_digit (c / 16 mod 16); hex_digit (c mod 16)].

Definition unicode_escape (c : N) : jstring := 92 :: 117 :: hex4 c.

Definition is_high (c : N) : bool := (55296 <=? c) && (c <=? 56319).
Definition is_low (c : N) : bool := (56320 <=? c) && (c <=? 57343).

Fixpoint quote_chars (s : jstring) : jstring :=
  match s with
  | [] => []
  | c :: r =>
      if c =? 8 then 92 :: 98 :: quote_chars r
      else if c =? 9 then 92 :: 116 :: quote_chars r
      else if c =? 10 then 92 :: 110 :: quote_chars r
      else if c =? 12 then 92 :: 102 :: quote_chars r
      else if c =? 13 then 92 :: 114 :: quote_chars r
      else if c =? 34 then 92 :: 34 :: quote_chars r
      else if c =? 92 then 92 :: 92 :: quote_chars r
      else if c <? 32 then unicode_escape c ++ quote_chars r
      else if is_high c then
        match r with
        | d :: r' =>
            if is_low d then c :: d :: quote_chars r'
            else unicode_escape c ++ quote_chars r
        | [] => unicode_escape c
        end
      else if is_low c then unicode_escape c ++ quote_chars r
      else c :: quote_chars r
  end.

Definition quote (s : jstring) : jstring := 34 :: quote_chars s ++ [34].

Definition print_num (n : numlit) : jstring :=
  (if num_neg n then [45] else [])
  ++ print_uint (num_int n)
  ++ match num_frac n with Some f => 46 :: print_uint f | None => [] end
  ++ match num_exp n with
     | Some (sg, d) => 101 :: (if sg then [45] else []) ++ print_uint d
     | None => []
     end.

Fixpoint join_comma (l : list jstring) : jstring :=
  match l with
  | [] => []
  | x :: r => match r with [] => x | _ :: _ => x ++ 44 :: join_comma r end
  end.

Fixpoint print (v : json) : jstring :=
  match v with
  | JNull => js "null"
  | JBool true => js "true"
  | JBool false => js "false"
  | JNum n => print_num n
  | JStr s => quote s
  | JArr l => 91 :: join_comma (map print l) ++ [93]
  | JObj l => 123 :: join_comma (map (λ kv, quote kv.1 ++ 58 :: print kv.2) l) ++ [125]
  end.

Definition JSON_stringify (v : json) : jstring := print v.

(** ** JSON.parse

    The JSON grammar of ECMA-404, read by recursive descent.  [None] is a
    syntax error. *)

Definition is_ws (c : N) : bool := (c =? 32) || (c =? 9) || (c =? 10) || (c =? 13).

Fixpoint skip_ws (s : jstring) : jstring :=
  match s with
  | c :: r => if is_ws c then skip_ws r else s
  | [] => []
  end.

Definition digit_of (c : N) : option (Decimal.uint → Decimal.uint) :=
  if c =? 48 then Some D0 else if c =? 49 then Some D1
  else if c =? 50 then Some D2 else if c =? 51 then Some D3
  else if c =? 52 then Some D4 else if c =? 53 then Some D5
  else if c =? 54 then Some D6 else if c =? 55 then Some D7
  else if c =? 56 then Some D8 else if c =? 57 then Some D9
  else None.

Fixpoint scan_digits (s : jstring) : Decimal.uint * jstring :=
  match s with
  | [] => (Nil, [])
  | c :: r =>
      match digit_of c with
      | Some d => let '(ds, rest) := scan_digits r in (d ds, rest)
      | None => (Nil, s)
      end
  end.

Definition hex_value (c : N) : option N :=
  if (48 <=? c) && (c <=? 57) then Some (c - 48)
  else if (97 <=? c) && (c <=? 102) then Some (c - 87)
  else if (65 <=? c) && (c <=? 70) then Some (c - 55)
  else None.

Definition unescape (e : N) : option N :=
  if e =? 34 then Some 34 else if e =? 92 then Some 92
  else if e =? 47 then Some 47 else if e =? 98 then Some 8
  else if e =? 102 then Some 12 else if e =? 110 then Some 10
  else if e =? 114 then Some 13 else if e =? 116 then Some 9
  else None.

Definition cons_char (c : N) (res : option (jstring * jstring)) : option (jstring * jstring) :=
  '(s, rest) ← res; Some (c :: s, rest).

(** The characters of a string literal after its opening quote, up to and
    including the closing quote. *)
Fixpoint parse_chars (s : jstring) : option (jstring * jstring) :=
  match s with
  | [] => None
  | c :: r =>
      if c =? 34 then Some ([], r)
      else if c =? 92 then
        match r with
        | [] => None
        | e :: r1 =>
            if e =? 117 then
              match r1 with
              | h1 :: h2 :: h3 :: h4 :: r2 =>
                  match hex_value h1, hex_value h2, hex_value h3, hex_value h4 with
                  | Some a, Some b, Some c', Some d =>
                      cons_char (4096 * a + 256 * b + 16 * c' + d) (parse_chars r2)
                  | _, _, _, _ => None
                  end
              | _ => None
              end
            else
              match unescape e with
              | Some u => cons_char u (parse_chars r1)
              | None => None
              end
        end
      else if c <? 32 then None
      else cons_char c (parse_chars r)
  end.

Definition valid_int (d : Decimal.uint) : bool :=
  match d with
  | Nil => false
  | D0 Nil => true
  | D0 _ => false
  | _ => true
  end.

Definition nonnil (d : Decimal.uint) : bool :=
  match d with Nil => false | _ => true end.

Definition parse_frac (s : jstring) : option (option Decimal.uint * jstring) :=
  match s with
  | c :: r =>
      if c =? 46 then
        let '(f, rest) := scan_digits r in
        if nonnil f then Some (Some f, rest) else None
      else Some (None, s)
  | [] => Some (None, [])
  end.

Definition parse_sign (s : jstring) : bool * jstring :=
  match s with
  | c :: r => if c =? 45 then (true, r) else if c =? 43 then (false, r) else (false, s)
  | [] => (false, [])
  end.

Definition parse_exp (s : jstring) : option (option (bool * Decimal.uint) * jstring) :=
  match s with
  | c :: r =>
      if (c =? 101) || (c =? 69) then
        let '(sg, r1) := parse_sign r in
        let '(d, rest) := scan_digits r1 in
        if nonnil d then Some (Some (sg, d), rest) else None
      else Some (None, s)
  | [] => Some (None, [])
  end.

Definition parse_number (s : jstring) : option (numlit * jstring) :=
  let '(neg, s1) :=
    match s with
    | c :: r => if c =? 45 then (true, r) else (false, s)
    | [] => (false, [])
    end in
  let '(i, s2) := scan_digits s1 in
  if valid_int i then
    '(f, s3) ← parse_frac s2;
    '(e, s4) ← parse_exp s3;
    Some ({| num_neg := neg; num_int := i; num_frac := f; num_exp := e |}, s4)
  else None.

Fixpoint strip_prefix (p s : jstring) : option jstring :=
  match p, s with
  | [], _ => Some s
  | a :: p', b :: s' => if a =? b then strip_prefix p' s' else None
  | _ :: _, [] => None
  end.

(** Members become the properties of an object in the order of the text; a
    repeated key keeps its first position and takes the later value. *)
Fixpoint obj_set (k : jstring) (v : json) (l : list (jstring * json)) : list (jstring * json) :=
  match l with
  | [] => [(k, v)]
  | (k', v') :: r =>
      if bool_decide (k = k') then (k, v) :: r else (k', v') :: obj_set k v r
  end.

Definition obj_of_members (ms : list (jstring * json)) : list (jstring * json) :=
  foldl (λ acc kv, obj_set kv.1 kv.2 acc) [] ms.

Fixpoint parse_value (n : nat) (s : jstring) {struct n} : option (json * jstring) :=
  match n with
  | O => None
  | S n' =>
      match skip_ws s with
      | [] => None
      | c :: r =>
          if c =? 123 then
            match skip_ws r with
            | [] => None
            | c' :: r' =>
                if c' =? 125 then Some (JObj [], r')
                else '(ms, rest) ← parse_members n' r; Some (JObj (obj_of_members ms), rest)
            end
          else if c =? 91 then
            match skip_ws r with
            | [] => None
            | c' :: r' =>
                if c' =? 93 then Some (JArr [], r')
                else '(vs, rest) ← parse_elements n' r; Some (JArr vs, rest)
            end
          else if c =? 34 then '(str, rest) ← parse_chars r; Some (JStr str, rest)
          else if c =? 116 then rest ← strip_prefix (js "rue") r; Some (JBool true, rest)
          else if c =? 102 then rest ← strip_prefix (js "alse") r; Some (JBool false, rest)
          else if c =? 110 then rest ← strip_prefix (js "ull") r; Some (JNull, rest)
          else '(lit, rest) ← parse_number (c :: r); Some (JNum lit, rest)
      end
  end
with parse_elements (n : nat) (s : jstring) {struct n} : option (list json * jstring) :=
  match n with
  | O => None
  | S n' =>
      '(v, r) ← parse_value n' s;
      match skip_ws r with
      | [] => None
      | c :: r' =>
          if c =? 44 then '(vs, rest) ← parse_elements n' r'; Some (v :: vs, rest)
          else if c =? 93 then Some ([v], r')
          else None
      end
  end
with parse_members (n : nat) (s : jstring) {struct n} : option (list (jstring * json) * jstring) :=
  match n with
  | O => None
  | S n' =>
      match skip_ws s with
      | [] => None
      | c :: r =>
          if c =? 34 then
            '(k, r1) ← parse_chars r;
            match skip_ws r1 with
            | [] => None
            | c1 :: r2 =>
                if c1 =? 58 then
                  '(v, r3) ← parse_value n' r2;
                  match skip_ws r3 with
                  | [] => None
                  | c3 :: r4 =>
                      if c3 =? 44 then
                        '(ms, rest) ← parse_members n' r4; Some ((k, v) :: ms, rest)
                      else if c3 =? 125 then Some ([(k, v)], r4)
                      else None
                  end
                else None
            end
          else None
      end
  end.

(** [JSON.parse(s)]: the value, or the [SyntaxError] it throws (whose message
    text is the engine's own). *)
Definition JSON_parse (s : jstring) : Exn + json :=
  match parse_value (S (length s)) s with
  | Some (v, rest) =>
      match skip_ws rest with
      | [] => inr v
      | _ :: _ => inl (SyntaxError (js "Unexpected non-whitespace character after JSON"))
      end
  | None => inl (SyntaxError (js "Unexpected token in JSON"))
  end.

(** *** Values a text denotes faithfully

    A number literal of the JSON grammar: an integer part without a leading
    zero, and digits wherever a fraction or an exponent is announced.  An
    object keeps each key once. *)

Definition wf_num (n : numlit) : bool :=
  valid_int (num_int n)
  && match num_frac n with Some f => nonnil f | None => true end
  && match num_exp n with Some (_, d) => nonnil d | None => true end.

Fixpoint wf (v : json) : bool :=
  match v with
  | JNum n => wf_num n
  | JArr l => forallb wf l
  | JObj l => bool_decide (NoDup l.*1) && forallb (λ kv, wf kv.2) l
  | _ => true
  end.

(** The recursion depth the parser needs for a value. *)
Fixpoint size (v : json) : nat :=
  match v with
  | JArr l => S (sum_list_with (λ x, S (size x)) l)
  | JObj l => S (sum_list_with (λ kv, S (size kv.2)) l)
  | _ => 1
  end.

(** What may follow a number: not a character that would continue it. *)
Definition starts_with_digit (s : jstring) : bool :=
  match s with
  | c :: _ => match digit_of c with Some _ => true | None => false end
  | [] => false
  end.

Definition number_stop (s : jstring) : bool :=
  match s with
  | [] => true
  | c :: _ => negb (starts_with_digit s) && negb (c =? 46) && negb (c =? 101) && negb (c =? 69)
  end.

(** With fuel for its depth, and before anything that cannot continue a
    number, the text of [v] parses to [v] and the parser stops right after
    it. *)
Definition parses (v : json) : Prop :=
  wf v = true → ∀ fuel rest,
    (size v ≤ fuel)%nat → number_stop rest = true →
    parse_value fuel (print v ++ rest) = Some (v, rest).

(** ** The component state (the [useState] cells, lines 4-13)

    A history item carries the seven fields of the object literal of lines
    165-173; its identifier and its two counts are non-negative integers. *)

Module Item.
Record t := {
  id : N;
  timestamp : jstring;
  text : jstring;
  filename : jstring;
  audioUrl : jstring;
  wordCount : N;
  charCount : N
}.
End Item.

Record State := {
  recording : bool;
  transcript : jsval;
  loading : bool;
  error : jstring;
  success : bool;
  recordingTime : N;
  audioUrl : jstring;
  history : list Item.t;
  selectedHistory : option N;
  uploadController : option nat
}.

Definition initial_state : State :=
  {| recording := false; transcript := Some (JStr []); loading := false;
     error := []; success := false; recordingTime := 0; audioUrl := [];
     history := []; selectedHistory := None; uploadController := None |}.

Definition with_recording (v : bool) (s : State) : State :=
  {| recording := v; transcript := transcript s; loading := loading s;
     error := error s; success := success s; recordingTime := recordingTime s;
     audioUrl := audioUrl s; history := history s;
     selectedHistory := selectedHistory s; uploadController := uploadController s |}.

Definition with_transcript (v : jsval) (s : State) : State :=
  {| recording := recording s; transcript := v; loading := loading s;
     error := error s; success := success s; recordingTime := recordingTime s;
     audioUrl := audioUrl s; history := history s;
     selectedHistory := selectedHistory s; uploadController := uploadController s |}.

Definition with_loading (v : bool) (s : State) : State :=
  {| recording := recording s; transcript := transcript s; loading := v;
     error := error s; success := success s; recordingTime := recordingTime s;
     audioUrl := audioUrl s; history := history s;
     selectedHistory := selectedHistory s; uploadController := uploadController s |}.

Definition with_error (v : jstring) (s : State) : State :=
  {| recording := recording s; transcript := transcript s; loading := loading s;
     error := v; success := success s; recordingTime := recordingTime s;
     audioUrl := audioUrl s; history := history s;
     selectedHistory := selectedHistory s; uploadController := uploadController s |}.

Definition with_success (v : bool) (s : State) : State :=
  {| recording := recording s; transcript := transcript s; loading := loading s;
     error := error s; success := v; recordingTime := recordingTime s;
     audioUrl := audioUrl s; history := history s;
     selectedHistory := selectedHistory s; uploadController := uploadController s |}.

Definition with_recordingTime (v : N) (s : State) : State :=
  {| recording := recording s; transcript := transcript s; loading := loading s;
     error := error s; success := success s; recordingTime := v;
     audioUrl := audioUrl s; history := history s;
     selectedHistory := selectedHistory s; uploadController := uploadController s |}.

Definition with_audioUrl (v : jstring) (s : State) : State :=
  {| recording := recording s; transcript := transcript s; loading := loading s;
     error := error s; success := success s; recordingTime := recordingTime s;
     audioUrl := v; history := history s;
     selectedHistory := selectedHistory s; uploadController := uploadController s |}.

Definition with_history (v : list Item.t) (s : State) : State :=
  {| recording := recording s; transcript := transcript s; loading := loading s;
     error := error s; success := success s; recordingTime := recordingTime s;
     audioUrl := audioUrl s; history := v;
     selectedHistory := selectedHistory s; uploadController := uploadController s |}.

Definition with_selectedHistory (v : option N) (s : State) : State :=
  {| recording := recording s; transcript := transcript s; loading := loading s;
     error := error s; success := success s; recordingTime := recordingTime s;
     audioUrl := audioUrl s; history := history s;
     selectedHistory := v; uploadController := uploadController s |}.

Definition with_uploadController (v : option nat) (s : State) : State :=
  {| recording := recording s; transcript := transcript s; loading := loading s;
     error := error s; success := success s; recordingTime := recordingTime s;
     audioUrl := audioUrl s; history := history s;
     selectedHistory := selectedHistory s; uploadController := v |}.

(** ** The browser side

    What the component can observe or change outside its own state: the blob
    URLs handed out and revoked, the abort controllers created and signalled,
    the requests sent and the uploads still awaiting their response, the
    stored value under the key ['speechToTextHistory'], the media recorder
    and its chunk buffer, and the console. *)

Record Request := {
  request_filename : jstring;
  request_size : N;
  request_signal : nat
}.

(** What a suspended [sendAudioToBackend] still holds when its [fetch]
    settles: its controller and its two string arguments. *)
Record Upload := {
  upload_controller : nat;
  upload_filename : jstring;
  upload_audioUrl : jstring
}.

Record Browser := {
  objectUrls : N;
  revoked : list jstring;
  controllers : nat;
  aborted : list nat;
  requests : list Request;
  inflight : list Upload;
  localStorage : option jstring;
  mediaRecorder : bool;
  audioChunks : list N;
  console : list Exn
}.

Definition initial_browser : Browser :=
  {| objectUrls := 0; revoked := []; controllers := 0%nat; aborted := [];
     requests := []; inflight := []; localStorage := None;
     mediaRecorder := false; audioChunks := []; console := [] |}.

Record World := { state : State; browser : Browser }.

Definition initial : World := {| state := initial_state; browser := initial_browser |}.

(** ** Handlers as computations: state passing with exceptions *)

Definition Eff (A : Type) : Type := World → (Exn + A) * World.

#[export] Instance Eff_ret : MRet Eff := λ A a w, (inr a, w).

#[export] Instance Eff_bind : MBind Eff := λ A B f m w,
  match m w with
  | (inr a, w') => f a w'
  | (inl e, w') => (inl e, w')
  end.

Definition throw {A} (e : Exn) : Eff A := λ w, (inl e, w).

(** [try { body } catch (err) { handler }] *)
Definition try_catch {A} (body : Eff A) (handler : Exn → Eff A) : Eff A := λ w,
  match body w with
  | (inl e, w') => handler e w'
  | r => r
  end.

(** [try { body } finally { final }] *)
Definition try_finally {A} (body : Eff A) (final : Eff unit) : Eff A := λ w,
  let '(r, w') := body w in
  match final w' with
  | (inl e, w'') => (inl e, w'')
  | (inr _, w'') => (r, w'')
  end.

Definition gets {A} (f : World → A) : Eff A := λ w, (inr (f w), w).

Definition upd_state (f : State → State) : Eff unit := λ w,
  (inr (), {| state := f (state w); browser := browser w |}).

Definition upd_browser (f : Browser → Browser) : Eff unit := λ w,
  (inr (), {| state := state w; browser := f (browser w) |}).

Fixpoint for_each {A} (l : list A) (f : A → Eff unit) : Eff unit :=
  match l with
  | [] => mret ()
  | x :: r => f x;; for_each r f
  end.

Definition setRecording (v : bool) : Eff unit := upd_state (with_recording v).
Definition setTranscript (v : jsval) : Eff unit := upd_state (with_transcript v).
Definition setLoading (v : bool) : Eff unit := upd_state (with_loading v).
Definition setError (v : jstring) : Eff unit := upd_state (with_error v).
Definition setSuccess (v : bool) : Eff unit := upd_state (with_success v).
Definition setRecordingTime (f : N → N) : Eff unit :=
  upd_state (λ s, with_recordingTime (f (recordingTime s)) s).
Definition setAudioUrl (v : jstring) : Eff unit := upd_state (with_audioUrl v).
Definition setHistory (f : list Item.t → list Item.t) : Eff unit :=
  upd_state (λ s, with_history (f (history s)) s).
Definition setSelectedHistory (v : option N) : Eff unit := upd_state (with_selectedHistory v).
Definition setUploadController (v : option nat) : Eff unit := upd_state (with_uploadController v).

(** [URL.createObjectURL]: a URL of the scheme [blob:] never handed out
    before. *)
Definition createObjectURL : Eff jstring := λ w,
  let b := browser w in
  (inr (js "blob:" ++ decimal (objectUrls b)),
   {| state := state w;
      browser := {| objectUrls := objectUrls b + 1; revoked := revoked b;
                    controllers := controllers b; aborted := aborted b;
                    requests := requests b; inflight := inflight b;
                    localStorage := localStorage b;
                    mediaRecorder := mediaRecorder b;
                    audioChunks := audioChunks b; console := console b |} |}).

Definition revokeObjectURL (url : jstring) : Eff unit :=
  upd_browser (λ b,
    {| objectUrls := objectUrls b; revoked := url :: revoked b;
       controllers := controllers b; aborted := aborted b;
       requests := requests b; inflight := inflight b;
       localStorage := localStorage b; mediaRecorder := mediaRecorder b;
       audioChunks := audioChunks b; console := console b |}).

(** [new AbortController()] *)
Definition new_AbortController : Eff nat := λ w,
  let b := browser w in
  (inr (controllers b),
   {| state := state w;
      browser := {| objectUrls := objectUrls b; revoked := revoked b;
                    controllers := S (controllers b); aborted := aborted b;
                    requests := requests b; inflight := inflight b;
                    localStorage := localStorage b;
                    mediaRecorder := mediaRecorder b;
                    audioChunks := audioChunks b; console := console b |} |}).

(** [controller.abort()] *)
Definition abort (c : nat) : Eff unit :=
  upd_browser (λ b,
    {| objectUrls := objectUrls b; revoked := revoked b;
       controllers := controllers b; aborted := c :: aborted b;
       requests := requests b; inflight := inflight b;
       localStorage := localStorage b; mediaRecorder := mediaRecorder b;
       audioChunks := audioChunks b; console := console b |}).

(** [fetch(url, {method: 'POST', body, signal})]: the request leaves, and the
    caller is suspended until it settles. *)
Definition fetch (r : Request) (k : Upload) : Eff unit :=
  upd_browser (λ b,
    {| objectUrls := objectUrls b; revoked := revoked b;
       controllers := controllers b; aborted := aborted b;
       requests := r :: requests b; inflight := inflight b ++ [k];
       localStorage := localStorage b; mediaRecorder := mediaRecorder b;
       audioChunks := audioChunks b; console := console b |}).

Definition settled (i : nat) : Eff unit :=
  upd_browser (λ b,
    {| objectUrls := objectUrls b; revoked := revoked b;
       controllers := controllers b; aborted := aborted b;
       requests := requests b; inflight := delete i (inflight b);
       localStorage := localStorage b; mediaRecorder := mediaRecorder b;
       audioChunks := audioChunks b; console := console b |}).

Definition localStorage_set (v : option jstring) : Eff unit :=
  upd_browser (λ b,
    {| objectUrls := objectUrls b; revoked := revoked b;
       controllers := controllers b; aborted := aborted b;
       requests := requests b; inflight := inflight b;
       localStorage := v; mediaRecorder := mediaRecorder b;
       audioChunks := audioChunks b; console := console b |}).

Definition set_recorder (on : bool) (chunks : list N) : Eff unit :=
  upd_browser (λ b,
    {| objectUrls := objectUrls b; revoked := revoked b;
       controllers := controllers b; aborted := aborted b;
       requests := requests b; inflight := inflight b;
       localStorage := localStorage b; mediaRecorder := on;
       audioChunks := chunks; console := console b |}).

(** ** What the environment decides

    The clock and locale read when a history item is built, and the message
    texts of the exceptions the engine itself raises. *)
Record Env := {
  date_now : N;
  locale_string : jstring;
  abort_message : jstring;
  null_property_message : jstring;
  not_a_function_message : jstring
}.

(** How the exchange behind a [fetch] ends when nobody aborts it: no response
    at all, or a response with its status and the outcome of reading its body
    as JSON. *)
Inductive NetOutcome :=
  | NetFail (e : Exn)
  | NetResponse (status : N) (body : Exn + json).

Definition response_ok (status : N) : bool := (200 <=? status) && (status <=? 299).

Record File := { file_name : jstring; file_type : jstring; file_size : N }.

Definition MAX_SIZE : N := 10 * 1024 * 1024.

(** ** The handlers of App.js *)

(** [data.transcription], [data.text]: an own property of an object; no
    prototype defines either name, so any other value but [null] gives
    [undefined]. *)
Definition data_field (data : json) (k : jstring) : jsval :=
  match data with
  | JObj l => assoc k l
  | _ => None
  end.

(** Line 159: [data.transcription || data.text || 'No transcription available'] *)
Definition pick_transcription (data : json) : jsval :=
  js_or (js_or (data_field data (js "transcription")) (data_field data (js "text")))
        (Some (JStr (js "No transcription available"))).

(** Lines 171 and 253: [text.split(/\s+/).filter(word => word.length > 0).length] *)
Definition count_words (s : jstring) : N :=
  N.of_nat (length (filter (λ word, 0 < length word)%nat (split_ws s))).

(** Lines 148-158: the two awaits of the [try] block.  An aborted signal
    rejects the pending [fetch] (or the pending body read) with an
    [AbortError], whatever the exchange would have delivered. *)
Definition await_response (c : nat) (net : NetOutcome) (env : Env) : Eff json :=
  signalled ← gets (λ w, bool_decide (c ∈ aborted (browser w)));
  if signalled : bool then throw (AbortError (abort_message env))
  else match net with
       | NetFail e => throw e
       | NetResponse status body =>
           if response_ok status
           then match body with inl e => throw e | inr data => mret data end
           else throw (Error (js "Server error: " ++ decimal status))
       end.

(** Lines 165-173 *)
Definition historyItem (env : Env) (transcription filename url : jstring) : Item.t :=
  {| Item.id := date_now env;
     Item.timestamp := locale_string env;
     Item.text := transcription;
     Item.filename := filename;
     Item.audioUrl := url;
     Item.wordCount := count_words transcription;
     Item.charCount := N.of_nat (length transcription) |}.

(** Line 174: [[historyItem, ...prev].slice(0, 10)] *)
Definition insert (item : Item.t) (prev : list Item.t) : list Item.t :=
  take 10 (item :: prev).

(** Lines 136-152: [sendAudioToBackend] up to its first [await]. *)
Definition sendAudioToBackend (size : N) (filename url : jstring) : Eff unit :=
  setLoading true;;
  setTranscript (Some (JStr []));;
  controller ← new_AbortController;
  setUploadController (Some controller);;
  fetch {| request_filename := filename; request_size := size; request_signal := controller |}
        {| upload_controller := controller; upload_filename := filename; upload_audioUrl := url |}.

(** Lines 154-186: [sendAudioToBackend] from the moment its [fetch] settles. *)
Definition sendAudioToBackend_resume (u : Upload) (net : NetOutcome) (env : Env) : Eff unit :=
  try_finally
    (try_catch
       (data ← await_response (upload_controller u) net env;
        transcription ←
          match data with
          | JNull => throw (TypeError (null_property_message env))
          | _ => mret (pick_transcription data)
          end;
        setTranscript transcription;;
        setSuccess true;;
        match transcription with
        | Some (JStr s) =>
            setHistory (insert (historyItem env s (upload_filename u) (upload_audioUrl u)))
        | _ => throw (TypeError (not_a_function_message env))
        end)
       (λ err,
          if bool_decide (exn_name err = js "AbortError")
          then setError (js "Upload cancelled")
          else setError (match exn_message err with
                         | [] => js "Failed to transcribe audio"
                         | m => m
                         end)))
    (setLoading false;; setUploadController None).

(** Lines 40-50: the interval callback, which runs only while recording, and
    the effect on [recording]. *)
Definition timer_tick : Eff unit :=
  on ← gets (λ w, recording (state w));
  if on : bool then setRecordingTime (λ prev, prev + 1) else mret ().

Definition timer_effect : Eff unit :=
  on ← gets (λ w, recording (state w));
  if on : bool then mret () else setRecordingTime (λ _, 0).

(** Lines 60-101.  [grant] is how the browser calls of the [try] block end
    ([getUserMedia], the [MediaRecorder] constructor, [start]). *)
Definition startRecording (grant : Exn + unit) : Eff unit :=
  setError [];;
  setSuccess false;;
  setTranscript (Some (JStr []));;
  setAudioUrl [];;
  try_catch
    (match grant with inl e => throw e | inr _ => mret () end;;
     set_recorder true [];;
     setRecording true)
    (λ err, setError (js "Microphone error: " ++ exn_message err)).

(** Lines 80-84: [ondataavailable] *)
Definition ondataavailable (size : N) : Eff unit :=
  if 0 <? size
  then
    recorder ← gets (λ w, mediaRecorder (browser w));
    chunks ← gets (λ w, audioChunks (browser w));
    set_recorder recorder (chunks ++ [size])
  else mret ().

(** Lines 104-109 *)
Definition stopRecording : Eff unit :=
  ready ← gets (λ w, mediaRecorder (browser w) && recording (state w));
  if ready : bool then setRecording false else mret ().

(** Lines 86-94: [onstop], up to the [await]. *)
Definition onstop : Eff unit :=
  chunks ← gets (λ w, audioChunks (browser w));
  url ← createObjectURL;
  setAudioUrl url;;
  sendAudioToBackend (foldr N.add 0 chunks) (js "recorded_audio.webm") url.

(** Lines 112-133.  [None] is an empty selection: [event.target.files[0]] is
    [undefined]. *)
Definition handleFileUpload (file : option File) : Eff unit :=
  match file with
  | None => mret ()
  | Some f =>
      if negb (startsWith (js "audio/") (file_type f))
      then setError (js "Please select a valid audio file")
      else if MAX_SIZE <? file_size f
      then setError (js "File size must be less than 10MB")
      else
        setError [];;
        setSuccess false;;
        url ← createObjectURL;
        setAudioUrl url;;
        sendAudioToBackend (file_size f) (file_name f) url
  end.

(** Lines 190-196 *)
Definition cancelUpload : Eff unit :=
  controller ← gets (λ w, uploadController (state w));
  match controller with
  | Some c => abort c;; setUploadController None;; setLoading false
  | None => mret ()
  end.

(** Lines 199-207.  [written] is how [navigator.clipboard.writeText] ends;
    [copy_expired] is the callback of the two-second timeout. *)
Definition copyToClipboard (written : Exn + unit) : Eff unit :=
  try_catch
    (match written with inl e => throw e | inr _ => mret () end;;
     setSuccess true)
    (λ _, setError (js "Failed to copy to clipboard")).

Definition copy_expired : Eff unit := setSuccess false.

(** Lines 210-216: the text file gets a blob URL of its own. *)
Definition downloadTranscript : Eff unit :=
  _ ← createObjectURL; mret ().

(** Lines 219-227.  [audioUrl] is the value of the render the handler was
    created in, read before the setters take effect. *)
Definition clearCurrent : Eff unit :=
  url ← gets (λ w, audioUrl (state w));
  setTranscript (Some (JStr []));;
  setAudioUrl [];;
  setError [];;
  setSuccess false;;
  match url with
  | [] => mret ()
  | _ :: _ => revokeObjectURL url
  end.

(** Lines 232-236: the callback of [history.forEach]. *)
Definition revoke_if_blob (item : Item.t) : Eff unit :=
  match Item.audioUrl item with
  | [] => mret ()
  | _ :: _ =>
      if startsWith (js "blob:") (Item.audioUrl item)
      then revokeObjectURL (Item.audioUrl item)
      else mret ()
  end.

(** Lines 230-240 *)
Definition clearHistory : Eff unit :=
  items ← gets (λ w, history (state w));
  for_each items revoke_if_blob;;
  setHistory (λ _, []);;
  localStorage_set None;;
  setSelectedHistory None.

(** Lines 243-249 *)
Definition loadFromHistory (item : Item.t) : Eff unit :=
  setTranscript (Some (JStr (Item.text item)));;
  setAudioUrl (Item.audioUrl item);;
  setSelectedHistory (Some (Item.id item));;
  setError [];;
  setSuccess false.

(** ** Persistence (lines 21-37) *)

(** A history item as the object literal of lines 165-173 lays it out. *)
Definition item_json (it : Item.t) : json :=
  JObj [(js "id", JNum (int_lit (Item.id it)));
        (js "timestamp", JStr (Item.timestamp it));
        (js "text", JStr (Item.text it));
        (js "filename", JStr (Item.filename it));
        (js "audioUrl", JStr (Item.audioUrl it));
        (js "wordCount", JNum (int_lit (Item.wordCount it)));
        (js "charCount", JNum (int_lit (Item.charCount it)))].

Definition history_json (h : list Item.t) : json := JArr (map item_json h).

(** Lines 33-37: the effect that runs when [history] has changed. *)
Definition save_effect : Eff unit :=
  h ← gets (λ w, history (state w));
  if (0 <? length h)%nat
  then localStorage_set (Some (JSON_stringify (history_json h)))
  else mret ().

(** Lines 21-30: the mount effect, on the stored value.  It returns the
    exceptions it logged and the value [history] has afterwards: the parsed
    value when [setHistory] is called, the initial [[]] otherwise. *)
Definition load (stored : option jstring) : list Exn * json :=
  match stored with
  | None => ([], JArr [])
  | Some [] => ([], JArr [])
  | Some (c :: s) =>
      match JSON_parse (c :: s) with
      | inr v => ([], v)
      | inl e => ([e], JArr [])
      end
  end.

(** ** The display gates of the render (lines 471, 487) *)

Definition shows_error (s : State) : bool :=
  match error s with [] => false | _ :: _ => true end.

Definition shows_success (s : State) : bool :=
  success s && negb (shows_error s) && negb (loading s).

(** ** Runs of the component *)

Inductive Event :=
  | StartRecording (grant : Exn + unit)
  | DataAvailable (size : N)
  | StopRecording
  | RecorderStopped
  | FileUpload (file : option File)
  | Settled (i : nat) (net : NetOutcome) (env : Env)
  | CancelUpload
  | CopyToClipboard (written : Exn + unit)
  | CopyExpired
  | DownloadTranscript
  | ClearCurrent
  | ClearHistory
  | LoadFromHistory (i : nat)
  | Tick.

Definition dispatch (ev : Event) : Eff unit :=
  match ev with
  | StartRecording grant => startRecording grant
  | DataAvailable size => ondataavailable size
  | StopRecording => stopRecording
  | RecorderStopped => onstop
  | FileUpload file => handleFileUpload file
  | Settled i net env =>
      pending ← gets (λ w, inflight (browser w) !! i);
      match pending with
      | Some u => settled i;; sendAudioToBackend_resume u net env
      | None => mret ()
      end
  | CancelUpload => cancelUpload
  | CopyToClipboard written => copyToClipboard written
  | CopyExpired => copy_expired
  | DownloadTranscript => downloadTranscript
  | ClearCurrent => clearCurrent
  | ClearHistory => clearHistory
  | LoadFromHistory i =>
      shown ← gets (λ w, history (state w) !! i);
      match shown with
      | Some item => loadFromHistory item
      | None => mret ()
      end
  | Tick => timer_tick
  end.

(** One event and the effects of the re-render after it. *)
Definition step (w : World) (ev : Event) : World :=
  ((dispatch ev;; timer_effect;; save_effect) w).2.

Definition run (evs : list Event) (w : World) : World := foldl step w evs.

(** A sequence of insertions, oldest first, and what one insertion drops:
    the part of [[historyItem, ...prev]] that [slice(0, 10)] leaves out. *)
Definition inserts (items prev : list Item.t) : list Item.t :=
  foldl (λ h item, insert item h) prev items.

Definition evicted (item : Item.t) (prev : list Item.t) : list Item.t :=
  drop 10 (item :: prev).

(** Identifiers strictly decreasing from index 0 on. *)
Definition ids_newest_first (ids : list N) : Prop :=
  StronglySorted (λ a b, b < a) ids.

(** ** Sample inputs *)

Definition sample_env (now : N) : Env :=
  {| date_now := now;
     locale_string := js "11/3/2026, 9:15:00 AM";
     abort_message := js "signal is aborted without reason";
     null_property_message := js "Cannot read properties of null";
     not_a_function_message := js "transcription.split is not a function" |}.

Definition sample_audio : File :=
  {| file_name := js "memo.mp3"; file_type := js "audio/mpeg"; file_size := MAX_SIZE |}.

Definition sample_image : File :=
  {| file_name := js "photo.png"; file_type := js "image/png"; file_size := MAX_SIZE + 1 |}.

Definition sample_response : NetOutcome :=
  NetResponse 200 (inr (JObj [(js "transcription", JStr (js "hello world"))])).

Definition sample_upload : Upload :=
  {| upload_controller := 0%nat; upload_filename := js "memo.mp3";
     upload_audioUrl := js "blob:0" |}.

Definition sample_item (n : N) : Item.t :=
  historyItem (sample_env n) (js "hello world") (js "memo.mp3") (js "blob:" ++ decimal n).

(** [n] uploads in a row, each answered before the next. *)
Definition uploads (n : nat) : list Event :=
  mjoin ((λ k, [FileUpload (Some sample_audio);
                Settled 0 sample_response (sample_env (N.of_nat k))]) <$> seq 1 n).

(** * Properties *)

Ltac eff_unfold :=
  unfold setRecording, setTranscript, setLoading, setError, setSuccess,
    setRecordingTime, setAudioUrl, setHistory, setSelectedHistory, setUploadController,
    createObjectURL, revokeObjectURL, new_AbortController, abort, fetch,
    settled, localStorage_set, set_recorder in *;
  unfold try_finally, try_catch, throw, gets, upd_state, upd_browser,
    mbind, mret, Eff_bind, Eff_ret in *;
  cbn beta iota in *.


(** ** The model on concrete inputs *)

Example count_words_spaces :
  split_ws (js "  hello   world  ") = [[]; js "hello"; js "world"; []]
  ∧ count_words (js "  hello   world  ") = 2
  ∧ count_words [] = 0.
Proof. split_and!; reflexivity. Qed.

Example stringify_escapes :
  JSON_stringify (JStr [34; 92; 10; 31; 233; 55357; 56832; 55357])
  = [34] ++ [92; 34] ++ [92; 92] ++ js "\n" ++ js "\u001f" ++ [233; 55357; 56832]
    ++ js "\ud83d" ++ [34].
Proof. reflexivity. Qed.

Example parse_accepts :
  JSON_parse (js " [1.5e-3, true, null, {}, -0 ] ")
  = inr (JArr [JNum {| num_neg := false; num_int := D1 Nil;
                       num_frac := Some (D5 Nil); num_exp := Some (true, D3 Nil) |};
               JBool true; JNull; JObj [];
               JNum {| num_neg := true; num_int := D0 Nil;
                       num_frac := None; num_exp := None |}]).
Proof. vm_compute. reflexivity. Qed.

Example parse_rejects :
  forallb (λ s, match JSON_parse s with inl _ => true | inr _ => false end)
    [js "01"; js "[1,]"; js "{oops"; js "tru"; []; js "1 2"; js "1."; js "-"]
  = true.
Proof. vm_compute. reflexivity. Qed.

Example zero_numbers :
  truthy (Some (JNum (int_lit 0))) = false
  ∧ truthy (Some (JNum (int_lit 7))) = true
  ∧ truthy (Some (JNum {| num_neg := false; num_int := D1 Nil; num_frac := None;
                          num_exp := Some (true, D4 (D0 (D0 Nil))) |})) = false.
Proof. vm_compute. repeat split. Qed.

(** ** The history list *)

Section history.
Implicit Types (item : Item.t) (h prev : list Item.t).

Lemma insert_length item prev : (length (insert item prev) ≤ 10)%nat.
Proof. unfold insert. rewrite length_take. lia. Qed.

Lemma insert_head item prev : insert item prev !! 0%nat = Some item.
Proof. reflexivity. Qed.

Lemma insert_split item prev : insert item prev ++ evicted item prev = item :: prev.
Proof. apply take_drop. Qed.

Lemma insert_cons item prev : insert item prev = item :: take 9 prev.
Proof. reflexivity. Qed.

Lemma inserts_snoc items item prev :
  inserts (items ++ [item]) prev = insert item (inserts items prev).
Proof. unfold inserts. by rewrite foldl_snoc. Qed.

Lemma inserts_take items prev :
  (length prev ≤ 10)%nat → inserts items prev = take 10 (reverse items ++ prev).
Proof.
  intros Hlen. induction items as [|item items IH] using rev_ind.
  - simpl. by rewrite take_ge.
  - rewrite inserts_snoc, IH, reverse_snoc. unfold insert. simpl.
    f_equal. rewrite take_take. f_equal.
Qed.

Lemma evicted_full item prev :
  length prev = 10%nat → ∃ old, last prev = Some old ∧ evicted item prev = [old].
Proof.
  intros Hlen. unfold evicted. simpl.
  do 10 (destruct prev as [|? prev]; [discriminate|]).
  destruct prev; [|discriminate]. eauto.
Qed.

Lemma evicted_room item prev : (length prev < 10)%nat → evicted item prev = [].
Proof. intros Hlen. unfold evicted. apply drop_ge. simpl. lia. Qed.

End history.

(** ** The handlers *)

Section handlers.
Implicit Types (w : World) (u : Upload) (env : Env) (net : NetOutcome).

Lemma for_each_state (l : list Item.t) (f : Item.t → Eff unit) w :
  (∀ x w0, ∃ b, f x w0 = (inr (), {| state := state w0; browser := b |})) →
  ∃ b, for_each l f w = (inr (), {| state := state w; browser := b |}).
Proof.
  intros Hf. revert w. induction l as [|x l IH]; intros w; simpl.
  - exists (browser w). by destruct w.
  - eff_unfold. destruct (Hf x w) as [b ->].
    destruct (IH {| state := state w; browser := b |}) as [b' ->]. eauto.
Qed.

(** A successful exchange whose text is a string: transcript and success
    flag are set, the new item goes into the history, the in-flight marker
    is cleared, and nothing on the browser side changes. *)
Lemma resume_success u status data s env w :
  upload_controller u ∉ aborted (browser w) →
  response_ok status = true →
  data ≠ JNull →
  pick_transcription data = Some (JStr s) →
  sendAudioToBackend_resume u (NetResponse status (inr data)) env w =
    (inr (),
     {| state :=
          with_uploadController None (with_loading false
            (with_history
               (insert (historyItem env s (upload_filename u) (upload_audioUrl u))
                       (history (state w)))
               (with_success true (with_transcript (Some (JStr s)) (state w)))));
        browser := browser w |}).
Proof.
  intros Hab Hok Hnull Hpick.
  unfold sendAudioToBackend_resume, await_response. eff_unfold.
  rewrite bool_decide_eq_false_2 by done. rewrite Hok.
  destruct data; try done; rewrite Hpick; reflexivity.
Qed.

(** An aborted signal: the [catch] clause reports the cancellation, and
    nothing else of the state changes but the in-flight marker. *)
Lemma resume_aborted u net env w :
  upload_controller u ∈ aborted (browser w) →
  sendAudioToBackend_resume u net env w =
    (inr (),
     {| state :=
          with_uploadController None (with_loading false
            (with_error (js "Upload cancelled") (state w)));
        browser := browser w |}).
Proof.
  intros Hab. unfold sendAudioToBackend_resume, await_response. eff_unfold.
  rewrite bool_decide_eq_true_2 by done. reflexivity.
Qed.

(** The continuation never raises and never touches the browser side: it
    creates, revokes, aborts, sends and stores nothing. *)
Lemma resume_browser u net env w :
  ∃ s, sendAudioToBackend_resume u net env w = (inr (), {| state := s; browser := browser w |}).
Proof.
  unfold sendAudioToBackend_resume, await_response. eff_unfold.
  repeat (case_match; simplify_eq/=; eauto).
Qed.

Lemma dispatch_history ev w :
  history (state (dispatch ev w).2) = history (state w)
  ∨ history (state (dispatch ev w).2) = []
  ∨ ∃ item, history (state (dispatch ev w).2) = insert item (history (state w)).
Proof.
  destruct ev; simpl.
  - unfold startRecording. eff_unfold. destruct grant; simpl; auto.
  - unfold ondataavailable. eff_unfold. case_match; simpl; auto.
  - unfold stopRecording. eff_unfold. case_match; simpl; auto.
  - unfold onstop, sendAudioToBackend. eff_unfold. simpl. auto.
  - unfold handleFileUpload, sendAudioToBackend. eff_unfold.
    repeat case_match; simpl; auto.
  - eff_unfold. destruct (inflight (browser w) !! i); simpl; auto.
    unfold sendAudioToBackend_resume, await_response. eff_unfold. simpl.
    repeat (case_match; simpl; simplify_eq; eauto).
  - unfold cancelUpload. eff_unfold. repeat case_match; simpl; auto.
  - unfold copyToClipboard. eff_unfold. destruct written; simpl; auto.
  - unfold copy_expired. eff_unfold. simpl. auto.
  - unfold downloadTranscript. eff_unfold. simpl. auto.
  - unfold clearCurrent. eff_unfold. repeat case_match; simpl; auto.
  - unfold clearHistory. eff_unfold.
    edestruct (for_each_state (history (state w)) revoke_if_blob) as [b ->]; [|simpl; auto].
    intros x w'. unfold revoke_if_blob. eff_unfold.
    repeat case_match; simpl; destruct w'; eauto.
  - eff_unfold. case_match; simpl; auto.
  - unfold timer_tick. eff_unfold. case_match; simpl; auto.
Qed.

Lemma effects_history w :
  history (state ((timer_effect;; save_effect) w).2) = history (state w).
Proof.
  unfold timer_effect, save_effect. eff_unfold.
  repeat (case_match; simplify_eq/=); done.
Qed.

Lemma step_history w ev : history (state (step w ev)) = history (state (dispatch ev w).2).
Proof.
  unfold step. change (dispatch ev;; timer_effect;; save_effect)
    with (mbind (M := Eff) (λ _ : (), timer_effect;; save_effect) (dispatch ev)).
  unfold mbind at 1, Eff_bind at 1.
  destruct (dispatch ev w) as [[e|[]] w']; [done|].
  apply effects_history.
Qed.

(** In every run of the component from its initial state, the history holds
    at most ten records. *)
Lemma run_history_bounded (evs : list Event) :
  (length (history (state (run evs initial))) ≤ 10)%nat.
Proof.
  induction evs as [|ev evs IH] using rev_ind; [simpl; lia|].
  unfold run in *. rewrite foldl_snoc, step_history.
  destruct (dispatch_history ev (foldl step initial evs)) as [->|[->|[item ->]]].
  - done.
  - simpl. lia.
  - apply insert_length.
Qed.

End handlers.

(** C1.  Whatever is inserted, and in whatever order, into a history of at
    most ten records: the list never holds more than ten, it is the ten
    newest records with the newest at index 0, and once it holds ten every
    further insertion drops exactly one record, the last of the list.  In
    every run of the component the history, which only grows by such
    insertions, holds at most ten records. *)
Theorem history_bounded_newest_first (items prev : list Item.t) :
  (length prev ≤ 10)%nat →
  (length (inserts items prev) ≤ 10)%nat
  ∧ inserts items prev = take 10 (reverse items ++ prev)
  ∧ (∀ item, inserts (items ++ [item]) prev !! 0%nat = Some item)
  ∧ (∀ item, (length (inserts items prev) < 10)%nat →
       evicted item (inserts items prev) = [])
  ∧ (∀ item, length (inserts items prev) = 10%nat →
       length (inserts (items ++ [item]) prev) = 10%nat
       ∧ ∃ old, last (inserts items prev) = Some old
                ∧ evicted item (inserts items prev) = [old]
                ∧ inserts (items ++ [item]) prev = item :: take 9 (inserts items prev))
  ∧ (∀ evs, (length (history (state (run evs initial))) ≤ 10)%nat).
Proof.
  intros Hlen. split_and!; [..|apply run_history_bounded].
  - rewrite inserts_take by done. rewrite length_take. lia.
  - by apply inserts_take.
  - intros item. rewrite inserts_snoc. apply insert_head.
  - intros item. apply evicted_room.
  - intros item Hfull. rewrite inserts_snoc, insert_cons. split.
    + simpl. rewrite length_take. lia.
    + destruct (evicted_full item _ Hfull) as (old & Hlast & Hev). eauto.
Qed.

Lemma history_bounded_newest_first_witness :
  (length (inserts [sample_item 1; sample_item 2] []) ≤ 10)%nat.
Proof.
  apply (history_bounded_newest_first [sample_item 1; sample_item 2] []).
  apply Nat.le_0_l.
Defined.

(** ** File selection *)

Lemma handleFileUpload_wrong_type (f : File) (w : World) :
  startsWith (js "audio/") (file_type f) = false →
  handleFileUpload (Some f) w =
    (inr (), {| state := with_error (js "Please select a valid audio file") (state w);
                browser := browser w |}).
Proof. intros Hty. unfold handleFileUpload. by rewrite Hty. Qed.

Lemma handleFileUpload_too_large (f : File) (w : World) :
  startsWith (js "audio/") (file_type f) = true → MAX_SIZE < file_size f →
  handleFileUpload (Some f) w =
    (inr (), {| state := with_error (js "File size must be less than 10MB") (state w);
                browser := browser w |}).
Proof.
  intros Hty Hsize. unfold handleFileUpload. rewrite Hty. simpl.
  by rewrite (proj2 (N.ltb_lt _ _) Hsize).
Qed.

Lemma handleFileUpload_accepted (f : File) (w : World) :
  startsWith (js "audio/") (file_type f) = true → file_size f ≤ MAX_SIZE →
  handleFileUpload (Some f) w =
    (inr (),
     {| state :=
          with_uploadController (Some (controllers (browser w)))
            (with_transcript (Some (JStr [])) (with_loading true
              (with_audioUrl (js "blob:" ++ decimal (objectUrls (browser w)))
                (with_success false (with_error [] (state w))))));
        browser :=
          {| objectUrls := objectUrls (browser w) + 1;
             revoked := revoked (browser w);
             controllers := S (controllers (browser w));
             aborted := aborted (browser w);
             requests :=
               {| request_filename := file_name f; request_size := file_size f;
                  request_signal := controllers (browser w) |} :: requests (browser w);
             inflight :=
               inflight (browser w) ++
               [{| upload_controller := controllers (browser w);
                   upload_filename := file_name f;
                   upload_audioUrl := js "blob:" ++ decimal (objectUrls (browser w)) |}];
             localStorage := localStorage (browser w);
             mediaRecorder := mediaRecorder (browser w);
             audioChunks := audioChunks (browser w);
             console := console (browser w) |} |}).
Proof.
  intros Hty Hsize. unfold handleFileUpload. rewrite Hty. simpl.
  rewrite (proj2 (N.ltb_ge _ _) Hsize). reflexivity.
Qed.

(** C10.  With an empty selection the upload handler returns at once: the
    whole world, every state cell and everything on the browser side (blob
    URLs, controllers, requests, stored history), is as it was. *)
Theorem upload_without_file_changes_nothing (w : World) :
  handleFileUpload None w = (inr (), w).
Proof. reflexivity. Qed.

(** C5, as the code has it.  The type check comes first: a candidate whose
    type does not begin with [audio/] gets the type error, whatever its size.
    A candidate of an audio type gets the size error when it is larger than
    10 * 1024 * 1024 bytes.  Either rejection changes the error cell and
    nothing else: no URL is created and no request is sent.  An audio
    candidate of at most that size, so one of exactly that size, clears
    error and success, gets a fresh blob URL and is sent. *)
Theorem upload_validation (f : File) (w : World) :
  MAX_SIZE = 10485760
  ∧ (startsWith (js "audio/") (file_type f) = false →
     handleFileUpload (Some f) w =
       (inr (), {| state := with_error (js "Please select a valid audio file") (state w);
                   browser := browser w |}))
  ∧ (startsWith (js "audio/") (file_type f) = true → MAX_SIZE < file_size f →
     handleFileUpload (Some f) w =
       (inr (), {| state := with_error (js "File size must be less than 10MB") (state w);
                   browser := browser w |}))
  ∧ (startsWith (js "audio/") (file_type f) = true → file_size f ≤ MAX_SIZE →
     ∃ w', handleFileUpload (Some f) w = (inr (), w')
       ∧ error (state w') = [] ∧ success (state w') = false
       ∧ loading (state w') = true
       ∧ audioUrl (state w') = js "blob:" ++ decimal (objectUrls (browser w))
       ∧ uploadController (state w') = Some (controllers (browser w))
       ∧ objectUrls (browser w') = objectUrls (browser w) + 1
       ∧ requests (browser w') =
           {| request_filename := file_name f; request_size := file_size f;
              request_signal := controllers (browser w) |} :: requests (browser w)
       ∧ inflight (browser w') =
           inflight (browser w) ++
           [{| upload_controller := controllers (browser w);
               upload_filename := file_name f;
               upload_audioUrl := js "blob:" ++ decimal (objectUrls (browser w)) |}]).
Proof.
  split_and!.
  - reflexivity.
  - apply handleFileUpload_wrong_type.
  - apply handleFileUpload_too_large.
  - intros Hty Hsize. rewrite handleFileUpload_accepted by done.
    eexists. split; [reflexivity|]. simpl. split_and!; reflexivity.
Qed.

Lemma upload_validation_witness :
  ∃ w', handleFileUpload (Some sample_audio) initial = (inr (), w')
    ∧ error (state w') = [] ∧ success (state w') = false
    ∧ loading (state w') = true.
Proof.
  destruct (upload_validation sample_audio initial) as (_ & _ & _ & Hpass).
  destruct Hpass as (w' & Hrun & Herr & Hsucc & Hload & _).
  - reflexivity.
  - unfold sample_audio. simpl. apply N.le_refl.
  - exists w'. repeat split; assumption.
Defined.

(** C5 as stated fails: a candidate over the size limit whose type is not an
    audio type is rejected with the type error, not the size error. *)
Lemma oversize_image_gets_type_error :
  MAX_SIZE < file_size sample_image
  ∧ error (state (handleFileUpload (Some sample_image) initial).2)
    = js "Please select a valid audio file"
  ∧ error (state (handleFileUpload (Some sample_image) initial).2)
    ≠ js "File size must be less than 10MB".
Proof. split_and!; [reflexivity | reflexivity | discriminate]. Qed.

(** ** The transcription text of a response *)

(** C6, as the code has it.  For a successful response whose JSON value is
    not [null], the transcript is the [transcription] field when its value is
    truthy, otherwise the [text] field when its value is truthy, otherwise
    the literal; a field that is absent is [undefined] and so not truthy. *)
Theorem transcript_fallback (u : Upload) (status : N) (data : json) (env : Env) (w : World) :
  upload_controller u ∉ aborted (browser w) →
  response_ok status = true →
  data ≠ JNull →
  transcript (state (sendAudioToBackend_resume u (NetResponse status (inr data)) env w).2)
  = (if truthy (data_field data (js "transcription"))
     then data_field data (js "transcription")
     else if truthy (data_field data (js "text"))
     then data_field data (js "text")
     else Some (JStr (js "No transcription available")))
  ∧ (data_field data (js "transcription") = None →
     data_field data (js "text") = None →
     transcript (state (sendAudioToBackend_resume u (NetResponse status (inr data)) env w).2)
     = Some (JStr (js "No transcription available"))).
Proof.
  intros Hab Hok Hnull.
  assert (transcript (state (sendAudioToBackend_resume u (NetResponse status (inr data)) env w).2)
          = pick_transcription data) as ->.
  { unfold sendAudioToBackend_resume, await_response. eff_unfold.
    rewrite bool_decide_eq_false_2 by done. rewrite Hok.
    destruct data; try done; simpl;
      destruct (pick_transcription _) as [[]|]; reflexivity. }
  split.
  - unfold pick_transcription, js_or.
    destruct (truthy (data_field data (js "transcription"))) eqn:Ht; rewrite ?Ht; [done|].
    destruct (truthy (data_field data (js "text"))) eqn:Hx; rewrite ?Hx; done.
  - intros Ht Hx. unfold pick_transcription. by rewrite Ht, Hx.
Qed.

Lemma transcript_fallback_witness :
  transcript (state (sendAudioToBackend_resume sample_upload sample_response
                       (sample_env 1) initial).2)
  = Some (JStr (js "hello world")).
Proof.
  refine (proj1 (transcript_fallback sample_upload 200 _ (sample_env 1) initial _ _ _)).
  - apply not_elem_of_nil.
  - reflexivity.
  - discriminate.
Defined.

(** C6 as stated fails: a [transcription] field that is present with the
    empty string as its value is passed over for the [text] field. *)
Lemma empty_transcription_is_passed_over :
  data_field (JObj [(js "transcription", JStr []); (js "text", JStr (js "hi"))])
             (js "transcription") = Some (JStr [])
  ∧ transcript (state (sendAudioToBackend_resume sample_upload
                         (NetResponse 200
                            (inr (JObj [(js "transcription", JStr []);
                                        (js "text", JStr (js "hi"))])))
                         (sample_env 1) initial).2)
    = Some (JStr (js "hi")).
Proof. split; reflexivity. Qed.

(** ** Cancellation *)

Section cancellation.
Implicit Types (w : World) (c : nat).

Lemma for_each_aborted (l : list Item.t) (f : Item.t → Eff unit) w :
  (∀ x w0, aborted (browser (f x w0).2) = aborted (browser w0)) →
  aborted (browser (for_each l f w).2) = aborted (browser w).
Proof.
  intros Hf. revert w. induction l as [|x l IH]; intros w; simpl; [done|].
  eff_unfold. specialize (Hf x w).
  destruct (f x w) as [[e|[]] w1]; simpl in *; [done|]. by rewrite IH.
Qed.

(** Once signalled, a controller stays signalled. *)
Lemma dispatch_aborted ev c w :
  c ∈ aborted (browser w) → c ∈ aborted (browser (dispatch ev w).2).
Proof.
  intros Hin. destruct ev; simpl.
  - unfold startRecording. eff_unfold. destruct grant; simpl; auto.
  - unfold ondataavailable. eff_unfold. case_match; simpl; auto.
  - unfold stopRecording. eff_unfold. case_match; simpl; auto.
  - unfold onstop, sendAudioToBackend. eff_unfold. simpl. auto.
  - unfold handleFileUpload, sendAudioToBackend. eff_unfold.
    repeat case_match; simpl; auto.
  - eff_unfold. destruct (inflight (browser w) !! i); simpl; auto.
    match goal with |- context [sendAudioToBackend_resume ?u ?n ?e ?w0] =>
      destruct (resume_browser u n e w0) as [s ->] end. simpl. auto.
  - unfold cancelUpload. eff_unfold. repeat case_match; simpl; auto.
    by apply list_elem_of_further.
  - unfold copyToClipboard. eff_unfold. destruct written; simpl; auto.
  - unfold copy_expired. eff_unfold. simpl. auto.
  - unfold downloadTranscript. eff_unfold. simpl. auto.
  - unfold clearCurrent. eff_unfold. repeat case_match; simpl; auto.
  - unfold clearHistory. eff_unfold.
    pose proof (for_each_aborted (history (state w)) revoke_if_blob w) as Hfe.
    destruct (for_each _ _ w) as [[e|[]] w1]; simpl in *.
    all: rewrite Hfe; [done|]; intros x w0; unfold revoke_if_blob; eff_unfold.
    all: repeat case_match; done.
  - eff_unfold. case_match; simpl; auto.
  - unfold timer_tick. eff_unfold. case_match; simpl; auto.
Qed.

Lemma effects_aborted w :
  aborted (browser ((timer_effect;; save_effect) w).2) = aborted (browser w).
Proof.
  unfold timer_effect, save_effect. eff_unfold.
  repeat (case_match; simplify_eq/=); done.
Qed.

Lemma step_aborted ev c w : c ∈ aborted (browser w) → c ∈ aborted (browser (step w ev)).
Proof.
  intros Hin. unfold step. change (dispatch ev;; timer_effect;; save_effect)
    with (mbind (M := Eff) (λ _ : (), timer_effect;; save_effect) (dispatch ev)).
  unfold mbind at 1, Eff_bind at 1.
  pose proof (dispatch_aborted ev c w Hin) as Hd.
  destruct (dispatch ev w) as [[e|[]] w']; [done|].
  by rewrite effects_aborted.
Qed.

Lemma run_aborted evs c w : c ∈ aborted (browser w) → c ∈ aborted (browser (run evs w)).
Proof.
  revert w. induction evs as [|ev evs IH]; intros w Hin; simpl; [done|].
  apply IH. by apply step_aborted.
Qed.

End cancellation.

(** A failed exchange that nobody aborted: the server's status, or the
    exception of the failure, becomes the error message. *)
Lemma resume_server_error (u : Upload) (status : N) (body : Exn + json) (env : Env) (w : World) :
  upload_controller u ∉ aborted (browser w) →
  response_ok status = false →
  error (state (sendAudioToBackend_resume u (NetResponse status body) env w).2)
  = js "Server error: " ++ decimal status.
Proof.
  intros Hab Hok. unfold sendAudioToBackend_resume, await_response. eff_unfold.
  rewrite bool_decide_eq_false_2 by done. by rewrite Hok.
Qed.

(** C3.  The upload whose controller the state holds is cancelled, any
    events follow, and only then its exchange settles, as a success or
    otherwise: the continuation takes the [AbortError] branch.  The error is
    ['Upload cancelled'], the in-flight marker is cleared, no exception
    escapes, and the history, the transcript, the success flag and the whole
    browser side are as they were just before; that message is none of the
    server-failure messages. *)
Theorem cancel_before_response (u : Upload) (net : NetOutcome) (env : Env)
    (evs : list Event) (w : World) :
  uploadController (state w) = Some (upload_controller u) →
  ∃ w1 w2,
    cancelUpload w = (inr (), w1)
    ∧ loading (state w1) = false
    ∧ uploadController (state w1) = None
    ∧ history (state w1) = history (state w)
    ∧ sendAudioToBackend_resume u net env (run evs w1) = (inr (), w2)
    ∧ error (state w2) = js "Upload cancelled"
    ∧ loading (state w2) = false
    ∧ uploadController (state w2) = None
    ∧ history (state w2) = history (state (run evs w1))
    ∧ transcript (state w2) = transcript (state (run evs w1))
    ∧ success (state w2) = success (state (run evs w1))
    ∧ browser w2 = browser (run evs w1)
    ∧ (∀ status, error (state w2) ≠ js "Server error: " ++ decimal status)
    ∧ error (state w2) ≠ js "Failed to transcribe audio".
Proof.
  intros Hctl. unfold cancelUpload. eff_unfold. rewrite Hctl.
  eexists _, _. split; [reflexivity|]. simpl.
  do 3 (split; [reflexivity|]).
  rewrite resume_aborted.
  - split; [reflexivity|]. simpl. split_and!; try reflexivity; discriminate.
  - apply run_aborted. simpl. apply list_elem_of_here.
Qed.

Lemma cancel_before_response_witness :
  ∃ w2,
    sendAudioToBackend_resume sample_upload sample_response (sample_env 1)
      (cancelUpload (handleFileUpload (Some sample_audio) initial).2).2 = (inr (), w2)
    ∧ error (state w2) = js "Upload cancelled"
    ∧ history (state w2) = [].
Proof.
  destruct (cancel_before_response sample_upload sample_response (sample_env 1) []
              (handleFileUpload (Some sample_audio) initial).2 eq_refl)
    as (w1 & w2 & Hc & _ & _ & _ & Hr & He & _ & _ & Hh & _).
  exists w2. injection Hc as <-. auto.
Defined.

(** ** Error and success *)

(** C8, as the code has it.  The render shows the success banner only while
    the error is empty and nothing is loading, so the two are never shown
    together.  [startRecording] clears the error and the success flag before
    it asks for the microphone, and an upload that passes validation clears
    both before a URL is created or a request is sent.  A rejected candidate
    sets the error and leaves the success flag as it was. *)
Theorem error_and_success_display (w : World) :
  shows_error (state w) && shows_success (state w) = false
  ∧ (∀ grant,
       success (state (startRecording grant w).2) = false
       ∧ match grant with
         | inr _ => error (state (startRecording grant w).2) = []
         | inl e => error (state (startRecording grant w).2)
                    = js "Microphone error: " ++ exn_message e
         end)
  ∧ (∀ f, startsWith (js "audio/") (file_type f) = true → file_size f ≤ MAX_SIZE →
       error (state (handleFileUpload (Some f) w).2) = []
       ∧ success (state (handleFileUpload (Some f) w).2) = false)
  ∧ (∀ f, startsWith (js "audio/") (file_type f) = false ∨ MAX_SIZE < file_size f →
       error (state (handleFileUpload (Some f) w).2) ≠ []
       ∧ success (state (handleFileUpload (Some f) w).2) = success (state w)
       ∧ browser (handleFileUpload (Some f) w).2 = browser w).
Proof.
  split_and!.
  - unfold shows_success. destruct (shows_error (state w)); simpl; [|done].
    by rewrite andb_false_r.
  - intros [e|[]]; unfold startRecording; eff_unfold; simpl; done.
  - intros f Hty Hsize. by rewrite handleFileUpload_accepted.
  - intros f Hrej.
    destruct (startsWith (js "audio/") (file_type f)) eqn:Hty.
    + destruct Hrej as [?|Hsize]; [done|].
      by rewrite handleFileUpload_too_large.
    + by rewrite handleFileUpload_wrong_type.
Qed.

Lemma error_and_success_display_witness :
  error (state (handleFileUpload (Some sample_audio) initial).2) = []
  ∧ success (state (handleFileUpload (Some sample_audio) initial).2) = false.
Proof.
  refine (proj1 (proj2 (proj2 (error_and_success_display initial))) sample_audio _ _).
  - reflexivity.
  - unfold sample_audio. simpl. apply N.le_refl.
Defined.

(** C8 as stated fails: after a successful transcription, a rejected upload
    leaves the state with both the success flag and an error set. *)
Lemma rejected_upload_keeps_success_flag :
  success (state (run [FileUpload (Some sample_audio);
                       Settled 0 sample_response (sample_env 1);
                       FileUpload (Some sample_image)] initial)) = true
  ∧ error (state (run [FileUpload (Some sample_audio);
                       Settled 0 sample_response (sample_env 1);
                       FileUpload (Some sample_image)] initial))
    = js "Please select a valid audio file".
Proof. split; vm_compute; reflexivity. Qed.

(** ** Identifiers *)

Section identifiers.
Implicit Types (items prev : list Item.t) (ids : list N).

Lemma inserts_prefix items prev :
  ∃ k, inserts items prev = take k (reverse items ++ prev).
Proof.
  induction items as [|item items [k IH]] using rev_ind.
  - exists (length prev). simpl. by rewrite take_ge.
  - exists (S (9 `min` k)).
    rewrite inserts_snoc, IH, reverse_snoc, insert_cons. simpl.
    by rewrite take_take.
Qed.

Lemma ids_newest_first_take ids k : ids_newest_first ids → ids_newest_first (take k ids).
Proof.
  unfold ids_newest_first. intros Hs.
  rewrite <- (take_drop k ids) in Hs. by apply StronglySorted_app_1_l in Hs.
Qed.

Lemma ids_newest_first_NoDup ids : ids_newest_first ids → NoDup ids.
Proof.
  unfold ids_newest_first. induction 1 as [|x l Hs IH Hall]; constructor; [|done].
  intros Hin. rewrite Forall_forall in Hall. specialize (Hall x Hin). lia.
Qed.

End identifiers.

(** C9, as the code has it.  The identifier of a history item is the clock
    reading ([Date.now()]) at the moment the response is handled.  When every
    insertion carries an identifier greater than all the identifiers before
    it, which is the clock having advanced by a millisecond or more, the
    identifiers in the history decrease strictly from index 0 on and are
    pairwise distinct. *)
Theorem ids_follow_the_clock (items prev : list Item.t) :
  ids_newest_first (Item.id <$> (reverse items ++ prev)) →
  ids_newest_first (Item.id <$> inserts items prev)
  ∧ NoDup (Item.id <$> inserts items prev)
  ∧ (∀ u status data s env w,
       upload_controller u ∉ aborted (browser w) →
       response_ok status = true →
       data ≠ JNull →
       pick_transcription data = Some (JStr s) →
       ∃ item,
         history (state (sendAudioToBackend_resume u (NetResponse status (inr data)) env w).2)
         = insert item (history (state w))
         ∧ Item.id item = date_now env).
Proof.
  intros Hs.
  assert (ids_newest_first (Item.id <$> inserts items prev)) as Hsorted.
  { destruct (inserts_prefix items prev) as [k ->].
    rewrite fmap_take. by apply ids_newest_first_take. }
  split_and!; [done | by apply ids_newest_first_NoDup |].
  intros u status data s env w Hab Hok Hnull Hpick.
  rewrite (resume_success u status data s env w) by done. simpl. eauto.
Qed.

Lemma ids_follow_the_clock_witness :
  NoDup (Item.id <$> inserts [sample_item 1; sample_item 2; sample_item 3] []).
Proof.
  refine (proj1 (proj2 (ids_follow_the_clock [sample_item 1; sample_item 2; sample_item 3] [] _))).
  unfold ids_newest_first. simpl.
  repeat first [reflexivity | constructor].
Defined.

(** C9 as stated fails: two responses handled at the same clock reading
    leave two different records with the same identifier. *)
Lemma same_millisecond_same_id :
  Item.id <$> history (state (run [FileUpload (Some sample_audio);
                                   Settled 0 sample_response (sample_env 5);
                                   FileUpload (Some sample_audio);
                                   Settled 0 sample_response (sample_env 5)] initial))
  = [5; 5]
  ∧ Item.audioUrl <$> history (state (run [FileUpload (Some sample_audio);
                                   Settled 0 sample_response (sample_env 5);
                                   FileUpload (Some sample_audio);
                                   Settled 0 sample_response (sample_env 5)] initial))
  = [js "blob:1"; js "blob:0"].
Proof. split; vm_compute; reflexivity. Qed.

(** ** Blob URLs *)

(** [clearCurrent] resets the four display cells and revokes the displayed
    URL whenever there is one; it never looks at the history. *)
Lemma clearCurrent_revokes (w : World) (c : N) (url : jstring) :
  audioUrl (state w) = c :: url →
  clearCurrent w =
    (inr (),
     {| state :=
          with_success false (with_error [] (with_audioUrl []
            (with_transcript (Some (JStr [])) (state w))));
        browser :=
          {| objectUrls := objectUrls (browser w);
             revoked := (c :: url) :: revoked (browser w);
             controllers := controllers (browser w);
             aborted := aborted (browser w);
             requests := requests (browser w);
             inflight := inflight (browser w);
             localStorage := localStorage (browser w);
             mediaRecorder := mediaRecorder (browser w);
             audioChunks := audioChunks (browser w);
             console := console (browser w) |} |}).
Proof. intros Hurl. unfold clearCurrent. eff_unfold. by rewrite Hurl. Qed.

(** C2 at a failing input.  Ten successful uploads fill the history; the
    eleventh drops the oldest record, the one with the URL [blob:0], and no
    URL has been revoked: the dropped record's resource is left allocated.
    The continuation of an upload revokes nothing in any world. *)
Theorem truncation_revokes_nothing :
  length (history (state (run (uploads 10) initial))) = 10%nat
  ∧ Item.audioUrl <$> last (history (state (run (uploads 10) initial))) = Some (js "blob:0")
  ∧ length (history (state (run (uploads 11) initial))) = 10%nat
  ∧ ¬ (js "blob:0" ∈ Item.audioUrl <$> history (state (run (uploads 11) initial)))
  ∧ revoked (browser (run (uploads 11) initial)) = []
  ∧ (∀ u net env w,
       revoked (browser (sendAudioToBackend_resume u net env w).2) = revoked (browser w)).
Proof.
  split_and!; try (vm_compute; reflexivity).
  - apply (bool_decide_unpack _). vm_compute. exact I.
  - intros u net env w. by destruct (resume_browser u net env w) as [s ->].
Qed.

(** C4 at a failing input.  After one successful upload the displayed URL is
    the URL of the stored record; [clearCurrent] revokes it although the
    record is still in the history.  In any world [clearCurrent] revokes the
    displayed URL and leaves the history as it is. *)
Theorem clearCurrent_revokes_stored_url :
  Item.audioUrl <$> history (state (run [FileUpload (Some sample_audio);
                                         Settled 0 sample_response (sample_env 1);
                                         ClearCurrent] initial))
  = [js "blob:0"]
  ∧ revoked (browser (run [FileUpload (Some sample_audio);
                           Settled 0 sample_response (sample_env 1);
                           ClearCurrent] initial))
  = [js "blob:0"]
  ∧ (∀ w c url, audioUrl (state w) = c :: url →
       revoked (browser (clearCurrent w).2) = (c :: url) :: revoked (browser w)
       ∧ history (state (clearCurrent w).2) = history (state w)).
Proof.
  split_and!; try (vm_compute; reflexivity).
  intros w c url Hurl. by rewrite (clearCurrent_revokes w c url Hurl).
Qed.

(** ** JSON: parsing what was printed *)

Section json_round_trip.
Implicit Types (v : json) (s rest tl : jstring) (c : N).

(** Induction on a value, with the hypothesis for every element of an array
    and every member of an object. *)
Lemma json_ind (P : json → Prop) :
  P JNull →
  (∀ b, P (JBool b)) →
  (∀ n, P (JNum n)) →
  (∀ s, P (JStr s)) →
  (∀ l, Forall P l → P (JArr l)) →
  (∀ l, Forall (λ kv, P kv.2) l → P (JObj l)) →
  ∀ v, P v.
Proof.
  intros Hnull Hbool Hnum Hstr Harr Hobj.
  fix IH 1. intros [|b|n|s|l|l].
  - apply Hnull.
  - apply Hbool.
  - apply Hnum.
  - apply Hstr.
  - apply Harr. induction l as [|x l IHl]; constructor; [apply IH | apply IHl].
  - apply Hobj. induction l as [|x l IHl]; constructor; [apply IH | apply IHl].
Qed.

Lemma hex_value_digit n : n < 16 → hex_value (hex_digit n) = Some n.
Proof.
  intros Hn. unfold hex_value, hex_digit.
  destruct (N.ltb_spec n 10).
  - replace ((48 <=? 48 + n) && (48 + n <=? 57)) with true.
    + f_equal. lia.
    + symmetry. apply andb_true_iff. split; apply N.leb_le; lia.
  - replace ((48 <=? 87 + n) && (87 + n <=? 57)) with false.
    + replace ((97 <=? 87 + n) && (87 + n <=? 102)) with true.
      * f_equal. lia.
      * symmetry. apply andb_true_iff. split; apply N.leb_le; lia.
    + symmetry. apply andb_false_iff. right. apply N.leb_gt. lia.
Qed.

Lemma parse_unicode_escape c rest :
  c < 65536 →
  parse_chars (unicode_escape c ++ rest) = cons_char c (parse_chars rest).
Proof.
  intros Hc. unfold unicode_escape, hex4. simpl.
  rewrite !hex_value_digit by (apply N.mod_lt; lia).
  do 2 f_equal.
  zify. Z.to_euclidean_division_equations. lia.
Qed.

Lemma parse_chars_step c r :
  (∀ rest, parse_chars (quote_chars r ++ 34 :: rest) = Some (r, rest)) →
  (∀ d r' rest, r = d :: r' → parse_chars (quote_chars r' ++ 34 :: rest) = Some (r', rest)) →
  ∀ rest, parse_chars (quote_chars (c :: r) ++ 34 :: rest) = Some (c :: r, rest).
Proof.
  intros IH1 IH2 rest.
  assert (∀ x, x < 65536 →
    parse_chars ((unicode_escape x ++ quote_chars r) ++ 34 :: rest) = Some (x :: r, rest)) as Hesc.
  { intros x Hx. rewrite <- app_assoc, parse_unicode_escape, IH1 by done. done. }
  cbn [quote_chars].
  destruct (N.eqb_spec c 8) as [->|?]; [simpl; by rewrite IH1|].
  destruct (N.eqb_spec c 9) as [->|?]; [simpl; by rewrite IH1|].
  destruct (N.eqb_spec c 10) as [->|?]; [simpl; by rewrite IH1|].
  destruct (N.eqb_spec c 12) as [->|?]; [simpl; by rewrite IH1|].
  destruct (N.eqb_spec c 13) as [->|?]; [simpl; by rewrite IH1|].
  destruct (N.eqb_spec c 34) as [->|?]; [simpl; by rewrite IH1|].
  destruct (N.eqb_spec c 92) as [->|?]; [simpl; by rewrite IH1|].
  destruct (N.ltb_spec c 32); [apply Hesc; lia|].
  assert (∀ tl, parse_chars (c :: tl) = cons_char c (parse_chars tl)) as Hraw.
  { intros tl. cbn [parse_chars].
    rewrite (proj2 (N.eqb_neq c 34)), (proj2 (N.eqb_neq c 92)) by done.
    by rewrite (proj2 (N.ltb_ge c 32)). }
  destruct (is_high c) eqn:Hhigh.
  { assert (c < 65536)
      by (unfold is_high in Hhigh; apply andb_true_iff in Hhigh as [_ ?%N.leb_le]; lia).
    destruct r as [|d r'].
    - rewrite <- (app_nil_r (unicode_escape c)). change [] with (quote_chars []).
      by apply Hesc.
    - destruct (is_low d) eqn:Hlow; [|by apply Hesc].
      assert (parse_chars (d :: quote_chars r' ++ 34 :: rest)
              = cons_char d (parse_chars (quote_chars r' ++ 34 :: rest))) as Hd.
      { unfold is_low in Hlow. apply andb_true_iff in Hlow as [?%N.leb_le ?%N.leb_le].
        cbn [parse_chars].
        rewrite (proj2 (N.eqb_neq d 34)), (proj2 (N.eqb_neq d 92)) by lia.
        by rewrite (proj2 (N.ltb_ge d 32)) by lia. }
      simpl app. rewrite Hraw, Hd, (IH2 d r') by done. done. }
  destruct (is_low c) eqn:Hlow.
  { apply Hesc. unfold is_low in Hlow. apply andb_true_iff in Hlow as [_ ?%N.leb_le]. lia. }
  simpl app. by rewrite Hraw, IH1.
Qed.

(** A quoted string reads back as the string, up to its closing quote. *)
Lemma parse_quote_chars s rest :
  parse_chars (quote_chars s ++ 34 :: rest) = Some (s, rest).
Proof.
  revert rest.
  enough ((∀ rest, parse_chars (quote_chars s ++ 34 :: rest) = Some (s, rest))
          ∧ ∀ c rest, parse_chars (quote_chars (c :: s) ++ 34 :: rest) = Some (c :: s, rest))
    as [? _] by done.
  induction s as [|d r' [IH1 IH2]].
  - split; [done|]. intros c. apply parse_chars_step; [done|]. intros; discriminate.
  - split; [apply IH2|]. intros c. apply parse_chars_step; [apply IH2|].
    intros ? ? ? [= -> ->]. apply IH1.
Qed.

Lemma scan_print_uint (d : Decimal.uint) tl :
  starts_with_digit tl = false → scan_digits (print_uint d ++ tl) = (d, tl).
Proof.
  intros Htl. induction d; simpl; rewrite ?IHd; try done.
  destruct tl as [|c r]; [done|]. simpl in *. by destruct (digit_of c).
Qed.

Lemma print_uint_head (d : Decimal.uint) tl :
  nonnil d = true →
  ∃ c r, print_uint d ++ tl = c :: r ∧ 48 ≤ c ∧ c ≤ 57.
Proof. destruct d; [done|..]; intros _; simpl; eexists _, _; (split; [done|lia]). Qed.

Lemma valid_int_nonnil (d : Decimal.uint) : valid_int d = true → nonnil d = true.
Proof. by destruct d. Qed.

Lemma number_stop_digit tl : number_stop tl = true → starts_with_digit tl = false.
Proof.
  destruct tl as [|c r]; [done|]. unfold number_stop.
  destruct (starts_with_digit (c :: r)); [done|done].
Qed.

Lemma parse_frac_print (f : option Decimal.uint) tl :
  match f with Some fd => nonnil fd = true | None => True end →
  starts_with_digit tl = false →
  (f = None → match tl with c :: _ => (c =? 46) = false | [] => True end) →
  parse_frac (match f with Some fd => 46 :: print_uint fd | None => [] end ++ tl)
  = Some (f, tl).
Proof.
  intros Hf Htl Hdot. destruct f as [fd|]; simpl.
  - rewrite scan_print_uint by done. by rewrite Hf.
  - destruct tl as [|c r]; [done|]. simpl. by rewrite Hdot.
Qed.

Lemma parse_exp_print (e : option (bool * Decimal.uint)) tl :
  match e with Some (_, d) => nonnil d = true | None => True end →
  starts_with_digit tl = false →
  (e = None → match tl with c :: _ => (c =? 101) || (c =? 69) = false | [] => True end) →
  parse_exp (match e with
             | Some (sg, d) => 101 :: (if sg then [45] else []) ++ print_uint d
             | None => ([] : jstring)
             end ++ tl)
  = Some (e, tl).
Proof.
  intros He Htl Hexp. destruct e as [[sg d]|]; simpl.
  - destruct sg; simpl.
    + rewrite scan_print_uint by done. by rewrite He.
    + destruct (print_uint_head d tl He) as (c & r & Heq & ? & ?).
      rewrite Heq. simpl.
      rewrite (proj2 (N.eqb_neq c 45)), (proj2 (N.eqb_neq c 43)) by lia.
      rewrite <- Heq, scan_print_uint by done. by rewrite He.
  - destruct tl as [|c r]; [done|]. simpl. by rewrite Hexp.
Qed.

(** A printed number literal reads back as the literal. *)
Lemma parse_print_num n rest :
  wf_num n = true → number_stop rest = true →
  parse_number (print_num n ++ rest) = Some (n, rest).
Proof.
  destruct n as [neg i f e]. unfold wf_num, print_num. simpl.
  intros [[Hi Hf]%andb_true_iff He]%andb_true_iff Hstop.
  pose proof (number_stop_digit rest Hstop) as Hdigit.
  set (E := match e with
            | Some (sg, d) => 101 :: (if sg then [45] else []) ++ print_uint d
            | None => [] end).
  set (F := match f with Some fd => 46 :: print_uint fd | None => [] end).
  assert (starts_with_digit (E ++ rest) = false) as HE.
  { subst E. destruct e as [[??]|]; done. }
  assert (starts_with_digit (F ++ E ++ rest) = false) as HF.
  { subst F. destruct f; done. }
  assert (parse_exp (E ++ rest) = Some (e, rest)) as Hpe.
  { apply parse_exp_print; [by destruct e as [[??]|] | done |].
    intros _. destruct rest as [|c r]; [done|].
    unfold number_stop in Hstop.
    destruct (c =? 101), (c =? 69); try done;
      by rewrite ?andb_false_r in Hstop. }
  assert (parse_frac (F ++ E ++ rest) = Some (f, E ++ rest)) as Hpf.
  { apply parse_frac_print; [by destruct f | done |].
    intros _. subst E. destruct e as [[??]|]; [done|]. simpl.
    destruct rest as [|c r]; [done|].
    unfold number_stop in Hstop. destruct (c =? 46); [|done].
    by rewrite ?andb_false_r in Hstop. }
  unfold parse_number.
  rewrite <- !app_assoc.
  destruct neg; simpl.
  - rewrite scan_print_uint by done. rewrite Hi. simpl.
    rewrite Hpf. simpl. rewrite Hpe. done.
  - destruct (print_uint_head i (F ++ E ++ rest) (valid_int_nonnil i Hi))
      as (c & r & Heq & ? & ?).
    rewrite Heq. rewrite (proj2 (N.eqb_neq c 45)) by lia.
    rewrite <- Heq, scan_print_uint by done. rewrite Hi. simpl.
    rewrite Hpf. simpl. rewrite Hpe. done.
Qed.

Lemma parse_value_S n s :
  parse_value (S n) s =
  match skip_ws s with
  | [] => None
  | c :: r =>
      if c =? 123 then
        match skip_ws r with
        | [] => None
        | c' :: r' =>
            if c' =? 125 then Some (JObj [], r')
            else '(ms, rest) ← parse_members n r; Some (JObj (obj_of_members ms), rest)
        end
      else if c =? 91 then
        match skip_ws r with
        | [] => None
        | c' :: r' =>
            if c' =? 93 then Some (JArr [], r')
            else '(vs, rest) ← parse_elements n r; Some (JArr vs, rest)
        end
      else if c =? 34 then '(str, rest) ← parse_chars r; Some (JStr str, rest)
      else if c =? 116 then rest ← strip_prefix (js "rue") r; Some (JBool true, rest)
      else if c =? 102 then rest ← strip_prefix (js "alse") r; Some (JBool false, rest)
      else if c =? 110 then rest ← strip_prefix (js "ull") r; Some (JNull, rest)
      else '(lit, rest) ← parse_number (c :: r); Some (JNum lit, rest)
  end.
Proof. reflexivity. Qed.

Lemma parse_elements_S n s :
  parse_elements (S n) s =
  '(v, r) ← parse_value n s;
  match skip_ws r with
  | [] => None
  | c :: r' =>
      if c =? 44 then '(vs, rest) ← parse_elements n r'; Some (v :: vs, rest)
      else if c =? 93 then Some ([v], r')
      else None
  end.
Proof. reflexivity. Qed.

Lemma parse_members_S n s :
  parse_members (S n) s =
  match skip_ws s with
  | [] => None
  | c :: r =>
      if c =? 34 then
        '(k, r1) ← parse_chars r;
        match skip_ws r1 with
        | [] => None
        | c1 :: r2 =>
            if c1 =? 58 then
              '(v, r3) ← parse_value n r2;
              match skip_ws r3 with
              | [] => None
              | c3 :: r4 =>
                  if c3 =? 44 then
                    '(ms, rest) ← parse_members n r4; Some ((k, v) :: ms, rest)
                  else if c3 =? 125 then Some ([(k, v)], r4)
                  else None
              end
            else None
        end
      else None
  end.
Proof. reflexivity. Qed.

Lemma print_num_head n tl :
  wf_num n = true → ∃ c r, print_num n ++ tl = c :: r ∧ (c = 45 ∨ 48 ≤ c ∧ c ≤ 57).
Proof.
  destruct n as [neg i f e]. unfold wf_num, print_num. simpl.
  intros [[Hi _]%andb_true_iff _]%andb_true_iff.
  destruct neg; simpl; [eauto|].
  rewrite <- app_assoc.
  match goal with |- ∃ c r, print_uint i ++ ?t = _ ∧ _ =>
    destruct (print_uint_head i t (valid_int_nonnil i Hi)) as (c & r & Heq & ?) end.
  eauto.
Qed.

(** The first character of a printed value is neither white space nor a
    closing bracket. *)
Lemma print_head v tl :
  wf v = true → ∃ c r, print v ++ tl = c :: r ∧ is_ws c = false ∧ (c =? 93) = false.
Proof.
  destruct v as [|[]|n|s|l|l]; simpl; try (intros _; eexists _, _; done).
  intros Hn. destruct (print_num_head n tl Hn) as (c & r & -> & Hc).
  exists c, r. split; [done|]. unfold is_ws.
  destruct Hc as [->|[??]]; [done|].
  rewrite !(proj2 (N.eqb_neq c _)) by lia. done.
Qed.

Lemma parse_value_number n c r :
  c = 45 ∨ 48 ≤ c ∧ c ≤ 57 →
  parse_value (S n) (c :: r) = '(lit, rest) ← parse_number (c :: r); Some (JNum lit, rest).
Proof.
  intros Hc. rewrite parse_value_S.
  assert (is_ws c = false) as Hws.
  { unfold is_ws. destruct Hc as [->|[??]]; [done|].
    rewrite !(proj2 (N.eqb_neq c _)) by lia. done. }
  cbn [skip_ws]. rewrite Hws.
  destruct Hc as [->|[??]]; [done|].
  rewrite !(proj2 (N.eqb_neq c _)) by lia. done.
Qed.

Lemma join_comma_cons (x : jstring) (l : list jstring) :
  l ≠ [] → join_comma (x :: l) = x ++ 44 :: join_comma l.
Proof. by destruct l. Qed.

Lemma parse_print_elements (l : list json) :
  Forall parses l → forallb wf l = true → l ≠ [] →
  ∀ fuel rest,
    (sum_list_with (λ x, S (size x)) l ≤ fuel)%nat →
    parse_elements fuel (join_comma (map print l) ++ 93 :: rest) = Some (l, rest).
Proof.
  induction 1 as [|v l Hv Hl IH]; [done|].
  intros [Hwv Hwl]%andb_true_iff _ fuel rest Hfuel.
  simpl in Hfuel. destruct fuel as [|fuel]; [lia|].
  rewrite parse_elements_S. destruct l as [|v2 tl].
  - simpl. rewrite Hv by (done || simpl in *; lia). done.
  - change (map print (v :: v2 :: tl)) with (print v :: map print (v2 :: tl)).
    rewrite join_comma_cons by done.
    remember (join_comma (map print (v2 :: tl))) as T eqn:HT.
    rewrite <- app_assoc. simpl app.
    rewrite Hv by (done || lia). simpl. subst T.
    rewrite IH by (done || lia). done.
Qed.

Lemma parse_print_members (l : list (jstring * json)) :
  Forall (λ kv, parses kv.2) l → forallb (λ kv, wf kv.2) l = true → l ≠ [] →
  ∀ fuel rest,
    (sum_list_with (λ kv, S (size kv.2)) l ≤ fuel)%nat →
    parse_members fuel
      (join_comma (map (λ kv, quote kv.1 ++ 58 :: print kv.2) l) ++ 125 :: rest)
    = Some (l, rest).
Proof.
  induction 1 as [|[k v] l Hv Hl IH]; [done|].
  intros [Hwv Hwl]%andb_true_iff _ fuel rest Hfuel.
  simpl in Hfuel, Hv, Hwv. destruct fuel as [|fuel]; [lia|].
  rewrite parse_members_S. destruct l as [|m2 tl].
  - simpl. rewrite <- !app_assoc. simpl. rewrite parse_quote_chars. simpl.
    rewrite Hv by (done || lia). done.
  - change (map ?f ((k, v) :: m2 :: tl)) with (f (k, v) :: map f (m2 :: tl)).
    rewrite join_comma_cons by done.
    remember (join_comma (map (λ kv, quote kv.1 ++ 58 :: print kv.2) (m2 :: tl))) as T eqn:HT.
    simpl. rewrite <- !app_assoc. simpl.
    rewrite parse_quote_chars. simpl.
    rewrite Hv by (done || lia). simpl. subst T.
    rewrite IH by (done || lia). done.
Qed.

Lemma obj_set_fresh k v (l : list (jstring * json)) :
  k ∉ l.*1 → obj_set k v l = l ++ [(k, v)].
Proof.
  induction l as [|[k' v'] l IH]; simpl; [done|].
  intros [Hne Hnin]%not_elem_of_cons.
  rewrite bool_decide_eq_false_2 by done. by rewrite IH.
Qed.

Lemma obj_of_members_NoDup (l : list (jstring * json)) :
  NoDup l.*1 → obj_of_members l = l.
Proof.
  unfold obj_of_members.
  enough (∀ acc, NoDup (acc.*1 ++ l.*1) →
            foldl (λ acc kv, obj_set kv.1 kv.2 acc) acc l = acc ++ l) as H
    by (intros Hl; apply (H [] Hl)).
  induction l as [|[k v] l IH]; intros acc Hnd; simpl.
  - by rewrite app_nil_r.
  - simpl in Hnd. rewrite obj_set_fresh.
    + rewrite IH; [by rewrite <- app_assoc|].
      rewrite fmap_app. simpl. by rewrite <- app_assoc.
    + apply NoDup_app in Hnd as (_ & Hdis & _). intros Hin.
      apply (Hdis k Hin). apply list_elem_of_here.
Qed.

(** Parsing the text of a value, with enough fuel and before anything that
    cannot continue a number, gives the value back and stops after it. *)
Lemma parse_print_value v : parses v.
Proof.
  induction v as [|b|n|s|l IH|l IH] using json_ind; intros Hwf fuel rest Hfuel Hstop;
    (destruct fuel as [|fuel]; [simpl in Hfuel; lia|]).
  - done.
  - by destruct b.
  - simpl in Hwf. destruct (print_num_head n rest Hwf) as (c & r & Heq & Hc).
    simpl print. rewrite Heq, parse_value_number by done.
    rewrite <- Heq, parse_print_num by done. done.
  - simpl. unfold quote. rewrite <- app_assoc. simpl. by rewrite parse_quote_chars.
  - destruct l as [|v l]; [done|].
    cbn [wf size] in Hwf, Hfuel. rewrite parse_value_S.
    change (print (JArr (v :: l))) with (91 :: join_comma (map print (v :: l)) ++ [93]).
    remember (join_comma (map print (v :: l))) as J eqn:HJ.
    simpl. rewrite <- app_assoc. simpl app.
    assert (∃ c r, J ++ 93 :: rest = c :: r ∧ is_ws c = false ∧ (c =? 93) = false)
      as (c & r & Heq & Hws & Hnb).
    { subst J. apply andb_true_iff in Hwf as [Hwv _].
      destruct l as [|v2 tl]; simpl.
      - by apply print_head.
      - rewrite <- app_assoc. by apply print_head. }
    rewrite Heq. cbn [skip_ws]. rewrite Hws, Hnb. rewrite <- Heq. subst J.
    rewrite (parse_print_elements (v :: l)) by (done || lia). done.
  - destruct l as [|[k v] l]; [done|].
    cbn [wf size] in Hwf, Hfuel. rewrite parse_value_S.
    change (print (JObj ((k, v) :: l)))
      with (123 :: join_comma (map (λ kv, quote kv.1 ++ 58 :: print kv.2) ((k, v) :: l)) ++ [125]).
    remember (join_comma (map (λ kv, quote kv.1 ++ 58 :: print kv.2) ((k, v) :: l))) as J eqn:HJ.
    simpl. rewrite <- app_assoc. simpl app.
    apply andb_true_iff in Hwf as [Hnd%bool_decide_eq_true Hwf].
    assert (∃ r, J ++ 125 :: rest = 34 :: r) as (r & Heq).
    { subst J. destruct l as [|m2 tl]; simpl; eauto. }
    rewrite Heq. simpl. rewrite <- Heq. subst J.
    rewrite (parse_print_members ((k, v) :: l)) by (done || lia). simpl.
    by rewrite (obj_of_members_NoDup ((k, v) :: l)).
Qed.

Lemma join_comma_length (xs : list jstring) :
  (sum_list_with (λ x, S (length x)) xs ≤ S (length (join_comma xs)))%nat.
Proof.
  induction xs as [|x [|y r] IH]; simpl in *; [lia|lia|].
  rewrite length_app. simpl. lia.
Qed.

Lemma size_le_length v : wf v = true → (size v ≤ length (print v))%nat.
Proof.
  induction v as [|b|n|s|l IH|l IH] using json_ind; intros Hwf.
  - simpl. lia.
  - destruct b; simpl; lia.
  - simpl in Hwf. destruct (print_num_head n [] Hwf) as (c & r & Heq & _).
    rewrite app_nil_r in Heq. simpl. rewrite Heq. simpl. lia.
  - simpl. lia.
  - cbn [wf size print] in *. simpl length. rewrite length_app. simpl.
    pose proof (join_comma_length (map print l)) as Hj.
    enough (sum_list_with (λ x, S (size x)) l
            ≤ sum_list_with (λ x, S (length x)) (map print l))%nat by lia.
    clear Hj. induction IH as [|v l Hv Hl IHl]; [done|].
    apply andb_true_iff in Hwf as [Hwv Hwl]. simpl.
    specialize (Hv Hwv). specialize (IHl Hwl). lia.
  - cbn [wf size print] in *.
    apply andb_true_iff in Hwf as [_ Hwf].
    pose proof (join_comma_length (map (λ kv, quote kv.1 ++ 58 :: print kv.2) l)) as Hj.
    remember (join_comma (map (λ kv, quote kv.1 ++ 58 :: print kv.2) l)) as J eqn:HJ.
    cbn [length]. rewrite length_app. cbn [length].
    enough (sum_list_with (λ kv, S (size kv.2)) l
            ≤ sum_list_with (λ x, S (length x))
                (map (λ kv, quote kv.1 ++ 58%N :: print kv.2) l))%nat by lia.
    clear Hj HJ. induction IH as [|[k v] l Hv Hl IHl]; [done|].
    apply andb_true_iff in Hwf as [Hwv Hwl]. simpl in *.
    specialize (Hv Hwv). specialize (IHl Hwl).
    rewrite length_app. simpl. lia.
Qed.

(** [JSON.parse(JSON.stringify(v))] is [v]. *)
Lemma JSON_parse_stringify v : wf v = true → JSON_parse (JSON_stringify v) = inr v.
Proof.
  intros Hwf. unfold JSON_parse, JSON_stringify.
  pose proof (parse_print_value v Hwf (S (length (print v))) []) as Hparse.
  rewrite app_nil_r in Hparse. rewrite Hparse; [done| |done].
  pose proof (size_le_length v Hwf). lia.
Qed.

Lemma valid_int_unorm (d : Decimal.uint) : valid_int (unorm d) = true.
Proof. induction d; done. Qed.

Lemma wf_int_lit n : wf (JNum (int_lit n)) = true.
Proof.
  simpl. unfold wf_num, int_lit. simpl.
  rewrite <- (DecimalN.Unsigned.of_to n) at 1.
  rewrite DecimalN.Unsigned.to_of. by rewrite valid_int_unorm.
Qed.

Lemma int_lit_inj n m : int_lit n = int_lit m → n = m.
Proof. intros [= H]. by apply DecimalN.Unsigned.to_uint_inj. Qed.

Lemma wf_history_json (h : list Item.t) : wf (history_json h) = true.
Proof.
  unfold history_json. cbn [wf]. induction h as [|it h IH]; [done|].
  cbn [map forallb]. rewrite IH, andb_true_r.
  unfold item_json. cbn [wf forallb snd].
  pose proof (wf_int_lit (Item.id it)) as H1.
  pose proof (wf_int_lit (Item.wordCount it)) as H2.
  pose proof (wf_int_lit (Item.charCount it)) as H3.
  cbn [wf] in H1, H2, H3. rewrite H1, H2, H3.
  apply andb_true_iff. split; [|done].
  apply bool_decide_eq_true. vm_compute.
  repeat (constructor; [rewrite ?elem_of_cons, elem_of_nil; intuition discriminate|]).
  constructor.
Qed.

Lemma history_json_inj (h1 h2 : list Item.t) :
  history_json h1 = history_json h2 → h1 = h2.
Proof.
  unfold history_json. intros [= H]. revert h2 H.
  induction h1 as [|a h1 IH]; intros [|b h2] H; try done.
  injection H as Hab Hrest. f_equal; [|by apply IH].
  destruct a, b. unfold item_json, int_lit in Hab. simplify_eq/=.
  repeat match goal with
         | H : N.to_uint _ = N.to_uint _ |- _ => apply DecimalN.Unsigned.to_uint_inj in H
         end.
  by subst.
Qed.

End json_round_trip.

(** ** Persistence *)

Lemma clearHistory_storage (w : World) :
  ∃ b, clearHistory w =
    (inr (), {| state := with_selectedHistory None (with_history [] (state w));
                browser := b |})
    ∧ localStorage b = None.
Proof.
  unfold clearHistory. eff_unfold.
  destruct (for_each_state (history (state w)) revoke_if_blob w) as [b ->].
  - intros x w0. unfold revoke_if_blob. eff_unfold.
    repeat case_match; destruct w0; eauto.
  - simpl. eauto.
Qed.

(** C7.  Whatever the history, loading its serialization gives back the
    same array of records, with nothing logged, and equal arrays are equal
    record lists, field for field.  The save effect stores exactly that
    serialization of a history that is not empty, and [clearHistory] leaves
    no stored value, so in both cases the next load reproduces the history.
    A stored text that [JSON.parse] rejects is caught: the load returns with
    the empty array. *)
Theorem history_round_trip :
  (∀ h, load (Some (JSON_stringify (history_json h))) = ([], history_json h))
  ∧ (∀ h1 h2, history_json h1 = history_json h2 → h1 = h2)
  ∧ (∀ w, history (state w) ≠ [] →
       (save_effect w).1 = inr ()
       ∧ load (localStorage (browser (save_effect w).2))
         = ([], history_json (history (state w))))
  ∧ (∀ w, history (state (clearHistory w).2) = []
       ∧ load (localStorage (browser (clearHistory w).2)) = ([], history_json []))
  ∧ (∀ s e, JSON_parse s = inl e → ∃ logged, load (Some s) = (logged, JArr []))
  ∧ load None = ([], JArr []).
Proof.
  assert (∀ h, load (Some (JSON_stringify (history_json h))) = ([], history_json h)) as Hload.
  { intros h. unfold load.
    pose proof (JSON_parse_stringify (history_json h) (wf_history_json h)) as Hparse.
    destruct (JSON_stringify (history_json h)) as [|c s] eqn:Hs; [discriminate Hs|].
    by rewrite Hparse. }
  split_and!.
  - exact Hload.
  - apply history_json_inj.
  - intros w Hne. unfold save_effect. eff_unfold.
    destruct (history (state w)) as [|it h] eqn:Hh; [done|].
    change (0 <? length (it :: h))%nat with true. cbn beta iota.
    split; [reflexivity | exact (Hload (it :: h))].
  - intros w. destruct (clearHistory_storage w) as (b & -> & Hb). simpl.
    by rewrite Hb.
  - intros s e Hbad. unfold load. destruct s as [|c s]; [eauto|].
    rewrite Hbad. eauto.
  - reflexivity.
Qed.

Lemma history_round_trip_witness :
  ∃ logged, load (Some (js "[{oops")) = (logged, JArr []).
Proof.
  refine (proj1 (proj2 (proj2 (proj2 (proj2 history_round_trip)))) (js "[{oops") _ eq_refl).
Defined.
